(** * numba/rewrites/static_raise.py: the [RewriteConstRaises] rewrite

    A shallow embedding of the rewrite that turns [raise]/[try-raise]
    statements with a constant exception into their static forms, and the
    properties of its classifier ([_break_constant]) and of its two phases
    ([match] and [apply]). *)

From stdpp Require Import gmap strings list fin_maps.

Set Default Proof Using "Type*".
Set Warnings "-register-all".

(** ** Python values *)

(** Class objects and the subclass relation belong to the Python runtime,
    not to the rewrite: the development is parametric in them.  [Exception]
    is the builtin class the source names in [issubclass(const, Exception)]. *)
Class PyClasses := {
  pyclass : Type;
  issubclass : pyclass → pyclass → bool;
  Exception : pyclass
}.

(** Exceptions raised by the rewrite, by the builtins it calls and by the
    constant-inference oracle. *)
Inductive exn_kind :=
  | IndexError            (* tuple index out of range *)
  | TypeError             (* object is not iterable *)
  | AttributeError        (* attribute missing on the object *)
  | ValueError            (* 'unexpected: {}' in match *)
  | ConstantInferenceError (* the oracle could not resolve the operand *)
  | OtherError (msg : string).

Section Values.
Context `{PyClasses}.

(** The constants the oracle can hand to the classifier. *)
Inductive value :=
  | VNone
  | VBool (b : bool)
  | VInt (z : Z)
  | VStr (s : string)
  | VType (c : pyclass)                         (* a class object *)
  | VInstance (c : pyclass) (args : list value) (* an instance of a class *)
  | VTuple (items : list value)
  | VList (items : list value).

(** An exception in flight: [NotImplementedError] carries the value that
    is formatted into "unsupported exception constant %r". *)
Inductive exn :=
  | NotImplementedError (offending : value)
  | Err (k : exn_kind).

Inductive Res (A : Type) :=
  | Ok (a : A)
  | Throw (e : exn).
Global Arguments Ok {A} a.
Global Arguments Throw {A} e.

Definition res_bind {A B} (r : Res A) (k : A → Res B) : Res B :=
  match r with
  | Ok a => k a
  | Throw e => Throw e
  end.

(** [t[i]] on a tuple. *)
Definition tuple_getitem (items : list value) (i : nat) : Res value :=
  match items !! i with
  | Some v => Ok v
  | None => Throw (Err IndexError)
  end.

(** The characters of a string, as one-character strings. *)
Fixpoint str_iter (s : string) : list value :=
  match s with
  | EmptyString => []
  | String a s' => VStr (String a EmptyString) :: str_iter s'
  end.

(** The builtin [tuple(x)]: the items of an iterable, in iteration order. *)
Definition py_tuple (x : value) : Res (list value) :=
  match x with
  | VTuple items => Ok items
  | VList items => Ok items
  | VStr s => Ok (str_iter s)
  | VNone | VBool _ | VInt _ | VType _ | VInstance _ _ => Throw (Err TypeError)
  end.

(** [isinstance(const, tuple)] *)
Definition is_tuple (const : value) : bool :=
  match const with
  | VTuple _ => true
  | _ => false
  end.

(** ** The classifier *)

(** [isinstance(const, type) and issubclass(const, Exception)] *)
Definition _is_exception_type (const : value) : bool :=
  match const with
  | VType c => issubclass c Exception
  | _ => false
  end.

Definition _break_constant (const : value) : Res (value * value) :=
  match const with
  | VTuple items =>
      res_bind (tuple_getitem items 0) (λ c0,
        if negb (_is_exception_type c0) then
          Throw (NotImplementedError c0)
        else
          res_bind (tuple_getitem items 0) (λ exc_type,
          res_bind (tuple_getitem items 1) (λ c1,
          res_bind (py_tuple c1) (λ exc_args,
          Ok (exc_type, VTuple exc_args)))))
  | _ =>
      if _is_exception_type const then Ok (const, VNone)
      else Throw (NotImplementedError const)
  end.

(** ** The IR *)

(** Objects are identified by their address; [ir.Var] by its name. *)
Definition addr := positive.
Definition Var := string.

Record Loc := mkLoc { filename : string; line : nat }.

(** Modelled from the spec: the instruction classes of numba/ir.py.  The
    two raise-like variants carry an optional exception operand and a
    source location; their static counterparts carry an exception type,
    the constructor arguments and the location; every other statement is
    kept opaque. *)
Inductive Inst :=
  | Raise (exception : option Var) (loc : Loc)
  | TryRaise (exception : option Var) (loc : Loc)
  | StaticRaise (exc_class exc_args : value) (loc : Loc)
  | StaticTryRaise (exc_class exc_args : value) (loc : Loc)
  | Stmt (text : string) (loc : Loc).

(** [inst.loc] *)
Definition inst_loc (i : Inst) : Loc :=
  match i with
  | Raise _ l | TryRaise _ l | StaticRaise _ _ l | StaticTryRaise _ _ l
  | Stmt _ l => l
  end.

(** [inst.exception] *)
Definition inst_exception (i : Inst) : Res (option Var) :=
  match i with
  | Raise e _ | TryRaise e _ => Ok e
  | _ => Throw (Err AttributeError)
  end.

(** [isinstance(inst, ir.Raise)], [isinstance(inst, ir.TryRaise)] and
    [isinstance(inst, (ir.Raise, ir.TryRaise))] *)
Definition is_Raise (i : Inst) : bool :=
  match i with Raise _ _ => true | _ => false end.
Definition is_TryRaise (i : Inst) : bool :=
  match i with TryRaise _ _ => true | _ => false end.
Definition is_raise_like (i : Inst) : bool := is_Raise i || is_TryRaise i.

(** Modelled from the spec: [ir.Block] of numba/ir.py, an ordered sequence
    of instructions (held by reference) with its scope and location. *)
Record Block := mkBlock { scope : string; block_loc : Loc; body : list addr }.

(** The oracle: [func_ir.infer_constant]. *)
Record FunctionIR := mkFunctionIR { infer_constant : Var → Res value }.

(** ** The store and the rewriter's fields *)

(** [insts] and [blocks] are the instruction and block objects alive;
    [raises], [tryraises] and [block] are the attributes of the rewriter
    ([None] while the attribute is not set); [queries] is the trace of the
    operands the oracle has been asked about. *)
Record State := mkState {
  insts : gmap addr Inst;
  blocks : gmap addr Block;
  raises : option (gmap addr (value * value));
  tryraises : option (gmap addr (value * value));
  block : option addr;
  queries : list Var
}.

Definition set_insts (f : gmap addr Inst → gmap addr Inst) (s : State) :=
  mkState (f (insts s)) (blocks s) (raises s) (tryraises s) (block s) (queries s).
Definition set_blocks (f : gmap addr Block → gmap addr Block) (s : State) :=
  mkState (insts s) (f (blocks s)) (raises s) (tryraises s) (block s) (queries s).
Definition set_raises (r : option (gmap addr (value * value))) (s : State) :=
  mkState (insts s) (blocks s) r (tryraises s) (block s) (queries s).
Definition set_tryraises (t : option (gmap addr (value * value))) (s : State) :=
  mkState (insts s) (blocks s) (raises s) t (block s) (queries s).
Definition set_block (b : option addr) (s : State) :=
  mkState (insts s) (blocks s) (raises s) (tryraises s) b (queries s).
Definition set_queries (q : list Var) (s : State) :=
  mkState (insts s) (blocks s) (raises s) (tryraises s) (block s) q.

(** Computations that read and update the store and may raise; the store
    reached when an exception is raised is kept. *)
Definition M (A : Type) : Type := State → Res A * State.

Definition ret {A} (a : A) : M A := λ s, (Ok a, s).
Definition throw {A} (e : exn) : M A := λ s, (Throw e, s).
Definition bind {A B} (m : M A) (k : A → M B) : M B :=
  λ s, match m s with
       | (Ok a, s') => k a s'
       | (Throw e, s') => (Throw e, s')
       end.
Definition lift {A} (r : Res A) : M A := λ s, (r, s).
Definition get : M State := λ s, (Ok s, s).
Definition modify (f : State → State) : M unit := λ s, (Ok tt, f s).

End Values.

Declare Scope py_scope.
Delimit Scope py_scope with py.
Notation "x <- m ;; k" := (bind m (λ x, k))
  (at level 100, m at next level, right associativity,
   format "'[v' x  <-  m  ;;  '/' k ']'") : py_scope.
Notation "m ;; k" := (bind m (λ _, k))
  (at level 100, k at level 200, right associativity) : py_scope.
Open Scope py_scope.

Section Rewrite.
Context `{PyClasses}.

(** Attribute and object reads.  An attribute that has not been set raises
    [AttributeError]; an address without an object, which no Python
    reference can be, raises an error of its own. *)
Definition of_option {A} (o : option A) (k : exn_kind) : M A :=
  match o with
  | Some a => ret a
  | None => throw (Err k)
  end.

Definition self_raises : M (gmap addr (value * value)) :=
  s <- get ;; of_option (raises s) AttributeError.
Definition self_tryraises : M (gmap addr (value * value)) :=
  s <- get ;; of_option (tryraises s) AttributeError.
Definition self_block : M addr :=
  s <- get ;; of_option (block s) AttributeError.
Definition get_inst (a : addr) : M Inst :=
  s <- get ;; of_option (insts s !! a) (OtherError "dangling instruction").
Definition get_block (b : addr) : M Block :=
  s <- get ;; of_option (blocks s !! b) (OtherError "dangling block").

(** [raises[inst] = v] and [tryraises[inst] = v], on the dictionaries the
    rewriter's attributes alias. *)
Definition raises_setitem (inst : addr) (v : value * value) : M unit :=
  r <- self_raises ;; modify (set_raises (Some (<[inst := v]> r))).
Definition tryraises_setitem (inst : addr) (v : value * value) : M unit :=
  t <- self_tryraises ;; modify (set_tryraises (Some (<[inst := v]> t))).

(** [func_ir.infer_constant(v)], recorded in the trace. *)
Definition call_infer_constant (func_ir : FunctionIR) (v : Var) : M value :=
  modify (λ s, set_queries (queries s ++ [v]) s) ;;
  lift (infer_constant func_ir v).

(** Object creation: a new object lives at an address not in use. *)
Definition new_inst (i : Inst) : M addr :=
  s <- get ;;
  let a := fresh (dom (insts s)) in
  modify (set_insts (insert a i)) ;;
  ret a.

(** Modelled from the spec: the methods of [ir.Block] (numba/ir.py).
    [copy] makes a new block of the same
    kind that owns its own instruction sequence, [clear] empties the
    sequence of the block it is called on, [append] adds one instruction
    at its end, and [find_insts] yields, in order, the instructions of the
    block that are instances of the given classes. *)
Definition Block_copy (b : addr) : M addr :=
  blk <- get_block b ;;
  s <- get ;;
  let nb := fresh (dom (blocks s)) in
  modify (set_blocks (insert nb (mkBlock (scope blk) (block_loc blk) (body blk)))) ;;
  ret nb.

Definition Block_clear (b : addr) : M unit :=
  blk <- get_block b ;;
  modify (set_blocks (insert b (mkBlock (scope blk) (block_loc blk) []))).

Definition Block_append (b : addr) (inst : addr) : M unit :=
  blk <- get_block b ;;
  modify (set_blocks (insert b (mkBlock (scope blk) (block_loc blk) (body blk ++ [inst])))).

Definition isinstance_at (heap : gmap addr Inst) (cls : Inst → bool) (a : addr) : bool :=
  match heap !! a with
  | Some i => cls i
  | None => false
  end.

Definition Block_find_insts (b : addr) (cls : Inst → bool) : M (list addr) :=
  blk <- get_block b ;;
  s <- get ;;
  ret (List.filter (isinstance_at (insts s) cls) (body blk)).

(** [for x in l: f(x)] *)
Fixpoint for_each {A} (f : A → M unit) (l : list A) : M unit :=
  match l with
  | [] => ret tt
  | x :: l' => f x ;; for_each f l'
  end.

(** ** match *)

(** The body of the loop of [match]. *)
Definition match_inst (func_ir : FunctionIR) (inst : addr) : M unit :=
  i <- get_inst inst ;;
  exception <- lift (inst_exception i) ;;
  broken <-
    match exception with
    | None => ret (VNone, VNone)
    | Some v =>
        const <- call_infer_constant func_ir v ;;
        lift (_break_constant const)
    end ;;
  let '(exc_type, exc_args) := broken in
  if is_Raise i then raises_setitem inst (exc_type, exc_args)
  else if is_TryRaise i then tryraises_setitem inst (exc_type, exc_args)
  else throw (Err ValueError).

Definition match_ (func_ir : FunctionIR) (b : addr) : M bool :=
  modify (set_raises (Some ∅)) ;;
  modify (set_tryraises (Some ∅)) ;;
  modify (set_block (Some b)) ;;
  found <- Block_find_insts b is_raise_like ;;
  for_each (match_inst func_ir) found ;;
  r <- self_raises ;;
  t <- self_tryraises ;;
  ret (bool_decide (0 < size r + size t)).

(** ** apply *)

(** The body of the loop of [apply]. *)
Definition apply_inst (new_block : addr) (inst : addr) : M unit :=
  r <- self_raises ;;
  match r !! inst with
  | Some (exc_type, exc_args) =>
      i <- get_inst inst ;;
      new <- new_inst (StaticRaise exc_type exc_args (inst_loc i)) ;;
      Block_append new_block new
  | None =>
      t <- self_tryraises ;;
      match t !! inst with
      | Some (exc_type, exc_args) =>
          i <- get_inst inst ;;
          new <- new_inst (StaticTryRaise exc_type exc_args (inst_loc i)) ;;
          Block_append new_block new
      | None => Block_append new_block inst
      end
  end.

Definition apply : M addr :=
  b <- self_block ;;
  new_block <- Block_copy b ;;
  Block_clear new_block ;;
  blk <- get_block b ;;
  for_each (apply_inst new_block) (body blk) ;;
  ret new_block.

(** ** Vocabulary of the statements *)

(** The operand the oracle is asked about for the instruction at [a]:
    the exception operand of a raise-like instruction, when present. *)
Definition operand_at (heap : gmap addr Inst) (a : addr) : option Var :=
  match heap !! a with
  | Some (Raise (Some v) _) | Some (TryRaise (Some v) _) => Some v
  | _ => None
  end.

(** What [apply] emits at the place of the instruction [a], given the two
    mappings, the instruction objects before ([heap]) and after ([heap']):
    a new static instruction for a key of a mapping, carrying the recorded
    pair and the location of [a]; [a] itself otherwise. *)
Definition emitted (heap heap' : gmap addr Inst)
    (r t : gmap addr (value * value)) (a a' : addr) : Prop :=
  match r !! a with
  | Some (exc_type, exc_args) =>
      heap !! a' = None ∧
      ∃ i, heap' !! a = Some i ∧
           heap' !! a' = Some (StaticRaise exc_type exc_args (inst_loc i))
  | None =>
      match t !! a with
      | Some (exc_type, exc_args) =>
          heap !! a' = None ∧
          ∃ i, heap' !! a = Some i ∧
               heap' !! a' = Some (StaticTryRaise exc_type exc_args (inst_loc i))
      | None => a' = a
      end
  end.

(** A computation that leaves every instruction object and every block
    object as it found them, whatever its outcome. *)
Definition keeps_store {A} (m : M A) : Prop :=
  ∀ s, insts (m s).2 = insts s ∧ blocks (m s).2 = blocks s.

(** A computation that, whatever its outcome, only adds instruction
    objects and changes no block object other than the one at [nb]. *)
Definition grows_outside {A} (nb : addr) (m : M A) : Prop :=
  ∀ s, insts s ⊆ insts (m s).2 ∧
       ∀ b, b ≠ nb → blocks (m s).2 !! b = blocks s !! b.

(** A computation whose only possible result is [x]. *)
Definition returns_only {A} (x : A) (m : M A) : Prop :=
  ∀ s y, (m s).1 = Ok y → y = x.

(** What [match] computes from an operand: the constant the oracle
    resolves it to, broken down by the classifier. *)
Definition resolve (func_ir : FunctionIR) (v : Var) : Res (value * value) :=
  res_bind (infer_constant func_ir v) _break_constant.

(** The pair [match] computes for the instruction at [a]: [(None, None)]
    when there is no operand, the resolution of the operand otherwise. *)
Definition expected (func_ir : FunctionIR) (heap : gmap addr Inst) (a : addr)
    : Res (value * value) :=
  match operand_at heap a with
  | Some v => resolve func_ir v
  | None => Ok (VNone, VNone)
  end.

(** A state with its trace of oracle queries erased, and the computations
    whose result and effects, the trace apart, do not depend on the trace
    they start from. *)
Definition forget (s : State) : State := set_queries [] s.

Definition trace_blind {A} (m : M A) : Prop :=
  ∀ s q, (m (set_queries q s)).1 = (m s).1 ∧
         forget (m (set_queries q s)).2 = forget (m s).2.

(** The shapes the specification calls supported: a bare exception type,
    or a two-element aggregate whose first element is an exception type. *)
Definition supported_shape (const : value) : Prop :=
  _is_exception_type const = true ∨
  ∃ e a, const = VTuple [e; a] ∧ _is_exception_type e = true.

End Rewrite.

(** ** A concrete runtime for examples *)

(** A fragment of the builtin class hierarchy, with one user-defined
    exception class; [builtin_mro] is the method resolution order of each
    class, and [issubclass] looks the second class up in it. *)
Inductive builtin_class :=
  | c_object | c_int | c_BaseException | c_Exception | c_KeyboardInterrupt
  | c_ValueError | c_MyError.

#[global] Instance builtin_class_eq_dec : EqDecision builtin_class.
Proof. solve_decision. Defined.

Definition builtin_mro (c : builtin_class) : list builtin_class :=
  match c with
  | c_object => [c_object]
  | c_int => [c_int; c_object]
  | c_BaseException => [c_BaseException; c_object]
  | c_Exception => [c_Exception; c_BaseException; c_object]
  | c_KeyboardInterrupt => [c_KeyboardInterrupt; c_BaseException; c_object]
  | c_ValueError => [c_ValueError; c_Exception; c_BaseException; c_object]
  | c_MyError => [c_MyError; c_Exception; c_BaseException; c_object]
  end.

Definition builtins : PyClasses :=
  {| pyclass := builtin_class;
     issubclass := λ c d, bool_decide (d ∈ builtin_mro c);
     Exception := c_Exception |}.

Definition bvalue : Type := @value builtins.
Definition bState : Type := @State builtins.
Definition bType (c : builtin_class) : bvalue := @VType builtins c.

Definition loc1 : Loc := mkLoc "f.py" 1.
Definition loc2 : Loc := mkLoc "f.py" 2.
Definition loc3 : Loc := mkLoc "f.py" 3.

(** [x = call(MyError, ("bad",)); raise(x)], the oracle resolving [x] to
    [(MyError, ("bad",))]. *)
Definition ex_oracle : @FunctionIR builtins :=
  mkFunctionIR (λ v,
    if String.eqb v "x" then Ok (VTuple [bType c_MyError; VTuple [VStr "bad"]])
    else if String.eqb v "e" then Ok (bType c_ValueError)
    else if String.eqb v "n" then Ok (VInt 3)
    else Throw (Err ConstantInferenceError)).

Definition ex_block (bd : list addr) : Block := mkBlock "scope" loc1 bd.

Definition ex_state (l : list (addr * Inst)) (b : addr) (bd : list addr) : bState :=
  mkState (list_to_map l) {[ b := ex_block bd ]} None None None [].

(** One assignment followed by a raise of a constant exception. *)
Definition ex_raise : bState :=
  ex_state [(1%positive, Stmt "x = call MyError('bad')" loc1);
            (2%positive, Raise (Some "x") loc2)] 1%positive [1%positive; 2%positive].

(** A bare re-raise inside a handler. *)
Definition ex_reraise : bState :=
  ex_state [(1%positive, TryRaise None loc1)] 1%positive [1%positive].

(** A block without any raise. *)
Definition ex_plain_body : list addr := [1%positive; 2%positive].
Definition ex_plain : bState :=
  ex_state [(1%positive, Stmt "x = 1" loc1); (2%positive, Stmt "return x" loc2)]
           1%positive ex_plain_body.

(** A raise, a try-raise, a re-raise and two other statements, in the
    block at address 7, and the state a successful [match] leaves. *)
Definition ex_mixed_body : list addr :=
  [1%positive; 2%positive; 3%positive; 4%positive; 5%positive].
Definition ex_mixed : bState :=
  ex_state [(1%positive, Stmt "x = call MyError('bad')" loc1);
            (2%positive, Raise (Some "x") loc2);
            (3%positive, TryRaise (Some "e") loc3);
            (4%positive, Stmt "y = 1" loc1);
            (5%positive, Raise None loc2)]
           7%positive ex_mixed_body.
Definition ex_mixed_matched : bState := (match_ ex_oracle 7%positive ex_mixed).2.
Definition ex_mixed_raises : gmap addr (bvalue * bvalue) :=
  default ∅ (raises ex_mixed_matched).
Definition ex_mixed_tryraises : gmap addr (bvalue * bvalue) :=
  default ∅ (tryraises ex_mixed_matched).

(** Three raises: the first resolves to an exception, the second to the
    integer 3, the third to nothing. *)
Definition ex_failing_body : list addr := [1%positive; 2%positive; 3%positive].
Definition ex_failing : bState :=
  ex_state [(1%positive, Raise (Some "x") loc1);
            (2%positive, TryRaise (Some "n") loc2);
            (3%positive, Raise (Some "zz") loc3)]
           1%positive ex_failing_body.

Definition ex_failing_aborted : bState := (match_ ex_oracle 1%positive ex_failing).2.
Definition ex_plain_matched : bState := (match_ ex_oracle 1%positive ex_plain).2.
Definition ex_mixed_applied : bState := (apply ex_mixed_matched).2.

(** An oracle that resolves nothing. *)
Definition no_oracle : @FunctionIR builtins :=
  mkFunctionIR (λ _, Throw (Err ConstantInferenceError)).

(** Split a goal into its conjuncts, leaving existentials alone. *)
Ltac conjs := repeat match goal with |- _ ∧ _ => split end.

(** ** The classifier: properties *)

Section ClassifierFacts.
Context `{PyClasses}.

Lemma exception_type_inv (const : value) :
  _is_exception_type const = true ↔
  ∃ c, const = VType c ∧ issubclass c Exception = true.
Proof.
  split.
  - destruct const; simpl; try discriminate. eauto.
  - intros (c & -> & Hc). exact Hc.
Qed.

Lemma exception_type_not_tuple (const : value) :
  _is_exception_type const = true → is_tuple const = false.
Proof. destruct const; simpl; congruence. Qed.

Lemma break_constant_not_tuple (const : value) :
  is_tuple const = false →
  _break_constant const =
    if _is_exception_type const then Ok (const, VNone)
    else Throw (NotImplementedError const).
Proof. destruct const; simpl; congruence. Qed.

Lemma break_constant_tuple_cons (c0 : value) (rest : list value) :
  _break_constant (VTuple (c0 :: rest)) =
    if _is_exception_type c0 then
      res_bind (tuple_getitem (c0 :: rest) 1)
        (λ c1, res_bind (py_tuple c1) (λ exc_args, Ok (c0, VTuple exc_args)))
    else Throw (NotImplementedError c0).
Proof. simpl. destruct (_is_exception_type c0); reflexivity. Qed.

(** C1: a two-element tuple of an exception type and a sequence (a tuple
    or a list) of constants is broken into the exception type and the
    tuple of those constants, in the same order and number. *)
Theorem break_constant_type_args (e seq : value) (args : list value) :
  _is_exception_type e = true →
  seq = VTuple args ∨ seq = VList args →
  _break_constant (VTuple [e; seq]) = Ok (e, VTuple args).
Proof.
  intros He Hseq. rewrite break_constant_tuple_cons, He.
  destruct Hseq as [-> | ->]; reflexivity.
Qed.

(** C9: on the empty tuple the classifier raises the [IndexError] of its
    first access, [const[0]]: it neither succeeds nor raises the
    "unsupported exception constant" error. *)
Theorem break_constant_empty_tuple :
  tuple_getitem [] 0 = Throw (Err IndexError) ∧
  _break_constant (VTuple []) = Throw (Err IndexError) ∧
  (∀ r, _break_constant (VTuple []) ≠ Ok r) ∧
  (∀ v, _break_constant (VTuple []) ≠ Throw (NotImplementedError v)).
Proof. repeat split; intros; simpl; discriminate. Qed.

(** C5: on a constant that is not a tuple, the classifier succeeds exactly
    when the constant is a class object that is a subclass of [Exception],
    and then returns the constant itself with [None] for the arguments;
    every other non-tuple constant, instances included, is rejected with
    the constant as the offending value. *)
Theorem break_constant_bare (const : value) :
  is_tuple const = false →
  (_break_constant const = Ok (const, VNone) ↔
     ∃ c, const = VType c ∧ issubclass c Exception = true) ∧
  (∀ r, _break_constant const = Ok r → r = (const, VNone)) ∧
  ((∀ c, const = VType c → issubclass c Exception = false) →
     _break_constant const = Throw (NotImplementedError const)).
Proof.
  intros Hnt. rewrite (break_constant_not_tuple _ Hnt).
  rewrite <- exception_type_inv.
  destruct (_is_exception_type const) eqn:He.
  - split; [tauto|]. split; [congruence|].
    intros Hno. apply exception_type_inv in He as (c & -> & Hc).
    rewrite (Hno c eq_refl) in Hc. discriminate.
  - split; [split; [discriminate | congruence]|]. split; [discriminate | done].
Qed.

(** The two outcomes the classifier is written for: when it raises the
    "unsupported exception constant" error, and when it succeeds. *)
Lemma break_constant_unsupported_or_ok (const : value) :
  (∀ v, _break_constant const = Throw (NotImplementedError v) ↔
     (∃ rest, const = VTuple (v :: rest) ∧ _is_exception_type v = false) ∨
     (is_tuple const = false ∧ v = const ∧ _is_exception_type const = false)) ∧
  (∀ r, _break_constant const = Ok r ↔
     (_is_exception_type const = true ∧ r = (const, VNone)) ∨
     (∃ e a rest args, const = VTuple (e :: a :: rest) ∧
        _is_exception_type e = true ∧ py_tuple a = Ok args ∧
        r = (e, VTuple args))).
Proof.
  destruct (is_tuple const) eqn:Ht.
  - destruct const as [| | | | | |items|]; try discriminate.
    destruct items as [|c0 rest].
    { split; intros; (split; [discriminate|]).
      - intros [(? & [=] & _) | ([=] & _)].
      - intros [([=] & _) | (? & ? & ? & ? & [=] & _)]. }
    rewrite break_constant_tuple_cons.
    destruct (_is_exception_type c0) eqn:He.
    + destruct rest as [|c1 rest]; simpl.
      { split; intros; (split; [discriminate|]).
        - intros [(? & [= <- _] & ?) | ([=] & _)]. congruence.
        - intros [([=] & _) | (? & ? & ? & ? & [=] & _)]. }
      destruct (py_tuple c1) as [args|e] eqn:Hc1; simpl.
      * split; intros.
        -- split; [discriminate|].
           intros [(? & [= <- _] & ?) | ([=] & _)]. congruence.
        -- split.
           ++ intros [= <-]. right. by exists c0, c1, rest, args.
           ++ intros [([=] & _) | (? & ? & ? & ? & [= <- <- _] & _ & Ha & ->)].
              congruence.
      * split; intros.
        -- split.
           ++ intros [= ->]. destruct c1; simpl in Hc1; discriminate.
           ++ intros [(? & [= <- _] & ?) | ([=] & _)]. congruence.
        -- split; [discriminate|].
           intros [([=] & _) | (? & ? & ? & ? & [= <- <- _] & _ & Ha & ->)].
           congruence.
    + split; intros.
      * split.
        -- intros [= ->]. left. by exists rest.
        -- intros [(? & [= <- _] & ?) | ([=] & _)]. done.
      * split; [discriminate|].
        intros [([=] & _) | (? & ? & ? & ? & [= <- _] & ? & _)]. congruence.
  - rewrite (break_constant_not_tuple _ Ht).
    destruct (_is_exception_type const) eqn:He.
    + split; intros.
      * split; [discriminate|].
        intros [(? & -> & _) | (_ & _ & [=])]. discriminate.
      * split; [intros [= <-]; by left|].
        intros [(_ & ->) | (? & ? & ? & ? & -> & _)]; [done | discriminate].
    + split; intros.
      * split; [intros [= ->]; by right|].
        intros [(? & -> & _) | (_ & -> & _)]; [discriminate | done].
      * split; [discriminate|].
        intros [([=] & _) | (? & ? & ? & ? & -> & _)]. discriminate.
Qed.

Lemma py_tuple_throw (x : value) (e : exn) :
  py_tuple x = Throw e → e = Err TypeError.
Proof. destruct x; cbn; congruence. Qed.

(** The errors of the accesses the classifier makes on a tuple: [const[0]],
    [const[1]] and [tuple(const[1])]. *)
Lemma break_constant_access_errors (const : value) (k : exn_kind) :
  _break_constant const = Throw (Err k) ↔
    (const = VTuple [] ∧ k = IndexError) ∨
    (∃ e, const = VTuple [e] ∧ _is_exception_type e = true ∧ k = IndexError) ∨
    (∃ e a rest, const = VTuple (e :: a :: rest) ∧ _is_exception_type e = true ∧
       py_tuple a = Throw (Err TypeError) ∧ k = TypeError).
Proof.
  destruct (is_tuple const) eqn:Ht.
  - destruct const as [| | | | | |items|]; try discriminate.
    destruct items as [|c0 rest].
    { cbn. split.
      - intros [= <-]. by left.
      - intros [[_ ->] | [(? & [=] & _) | (? & ? & ? & [=] & _)]]. done. }
    rewrite break_constant_tuple_cons.
    destruct (_is_exception_type c0) eqn:He.
    + destruct rest as [|c1 rest]; cbn.
      { split.
        - intros [= <-]. right. left. by exists c0.
        - intros [[[=] _] | [(? & _ & _ & ->) | (? & ? & ? & [=] & _)]]. done. }
      destruct (py_tuple c1) as [args|e] eqn:Hc1; cbn.
      * split; [discriminate|].
        intros [[[=] _] | [(? & [=] & _) | (? & ? & ? & [= <- <- _] & _ & Ha & _)]].
        congruence.
      * pose proof (py_tuple_throw _ _ Hc1) as ->. split.
        -- intros [= <-]. right. right. by exists c0, c1, rest.
        -- intros [[[=] _] | [(? & [=] & _) | (? & ? & ? & _ & _ & _ & ->)]]. done.
    + split; [discriminate|].
      intros [[[=] _] | [(? & [= <- _] & ? & _) | (? & ? & ? & [= <- _] & ? & _)]];
        congruence.
  - rewrite (break_constant_not_tuple _ Ht). split.
    + destruct (_is_exception_type const); discriminate.
    + intros [[-> _] | [(? & -> & _) | (? & ? & ? & -> & _)]]; discriminate.
Qed.

(** C2, as amended: the "unsupported exception constant" error is raised
    exactly for a non-empty tuple whose first element is not an exception
    type (the error carries that element) and for a non-tuple that is not
    an exception type (the error carries the constant); the classifier
    succeeds exactly for a bare exception type and for a tuple of at least
    two elements whose first is an exception type and whose second is
    iterable; on every other tuple it raises the error of the failing
    access: the [IndexError] of [const[0]] on the empty tuple, the
    [IndexError] of [const[1]] on a one-element tuple holding an exception
    type, and the [TypeError] of [tuple(const[1])] when the first element
    is an exception type and the second is not iterable. *)
Theorem break_constant_outcomes (const : value) :
  (∀ v, _break_constant const = Throw (NotImplementedError v) ↔
     (∃ rest, const = VTuple (v :: rest) ∧ _is_exception_type v = false) ∨
     (is_tuple const = false ∧ v = const ∧ _is_exception_type const = false)) ∧
  (∀ r, _break_constant const = Ok r ↔
     (_is_exception_type const = true ∧ r = (const, VNone)) ∨
     (∃ e a rest args, const = VTuple (e :: a :: rest) ∧
        _is_exception_type e = true ∧ py_tuple a = Ok args ∧
        r = (e, VTuple args))) ∧
  (∀ k, _break_constant const = Throw (Err k) ↔
     (const = VTuple [] ∧ k = IndexError) ∨
     (∃ e, const = VTuple [e] ∧ _is_exception_type e = true ∧ k = IndexError) ∨
     (∃ e a rest, const = VTuple (e :: a :: rest) ∧ _is_exception_type e = true ∧
        py_tuple a = Throw (Err TypeError) ∧ k = TypeError)).
Proof.
  destruct (break_constant_unsupported_or_ok const) as [Hne Hok].
  split; [exact Hne|]. split; [exact Hok|].
  intros k. apply break_constant_access_errors.
Qed.

End ClassifierFacts.

(** C1 at [(ValueError, (1, 2))]. *)
Lemma break_constant_type_args_witness :
  @_break_constant builtins (VTuple [bType c_ValueError; VTuple [VInt 1; VInt 2]])
  = Ok (bType c_ValueError, VTuple [VInt 1; VInt 2]).
Proof.
  apply (@break_constant_type_args builtins (bType c_ValueError)
           (VTuple [VInt 1; VInt 2]) [VInt 1; VInt 2]).
  - reflexivity.
  - left. reflexivity.
Defined.

(** C5 at the bare class [ValueError]. *)
Lemma break_constant_bare_witness :
  (@_break_constant builtins (bType c_ValueError) = Ok (bType c_ValueError, VNone) ↔
     ∃ c, bType c_ValueError = @VType builtins c ∧
          @issubclass builtins c (@Exception builtins) = true) ∧
  (∀ r, @_break_constant builtins (bType c_ValueError) = Ok r →
        r = (bType c_ValueError, VNone)) ∧
  ((∀ c, bType c_ValueError = @VType builtins c →
         @issubclass builtins c (@Exception builtins) = false) →
     @_break_constant builtins (bType c_ValueError)
     = Throw (NotImplementedError (bType c_ValueError))).
Proof.
  apply (@break_constant_bare builtins (bType c_ValueError)). reflexivity.
Defined.

(** The subclass test is against [Exception]: an instance of an exception
    class, and a class outside the [Exception] hierarchy, are rejected. *)
Example break_constant_instance :
  @_break_constant builtins (VInstance (c_ValueError : @pyclass builtins) [VStr "bad"])
  = Throw (NotImplementedError (VInstance (c_ValueError : @pyclass builtins) [VStr "bad"])).
Proof. reflexivity. Qed.

Example break_constant_not_exception :
  @_break_constant builtins (bType c_int) = Throw (NotImplementedError (bType c_int)).
Proof. reflexivity. Qed.

(** C2 as stated fails on the empty tuple: it has neither supported shape,
    yet the error raised is not the "unsupported exception constant" one. *)
Lemma break_constant_unsupported_counterexample :
  ¬ ((∃ v, @_break_constant builtins (VTuple []) = Throw (NotImplementedError v))
     ↔ ¬ @supported_shape builtins (VTuple [])).
Proof.
  intros [_ Hback]. destruct Hback as [v Hv]; [|discriminate].
  intros [Hty | (e & a & Heq & _)]; discriminate.
Qed.

(** Further inputs outside the two supported shapes: a three-element tuple
    is accepted, and a tuple whose second element is missing or is not
    iterable raises the error of the failing access. *)
Example break_constant_three_elements :
  @_break_constant builtins (VTuple [bType c_ValueError; VList [VInt 1]; VInt 7])
  = Ok (bType c_ValueError, VTuple [VInt 1]).
Proof. reflexivity. Qed.

Example break_constant_one_element :
  @_break_constant builtins (VTuple [bType c_ValueError]) = Throw (Err IndexError).
Proof. reflexivity. Qed.

Example break_constant_args_not_iterable :
  @_break_constant builtins (VTuple [bType c_ValueError; VInt 3]) = Throw (Err TypeError).
Proof. reflexivity. Qed.

(** ** match: properties *)

Section MatchFacts.
Context `{PyClasses}.
Implicit Types (s : State) (a b : addr) (f : FunctionIR).
Implicit Types (r t : gmap addr (value * value)).

Lemma raises_setitem_run a p s r :
  raises s = Some r →
  raises_setitem a p s = (Ok tt, set_raises (Some (<[a := p]> r)) s).
Proof.
  intros Hr. unfold raises_setitem, self_raises, bind, get, of_option, modify, ret.
  cbn. rewrite Hr. reflexivity.
Qed.

Lemma tryraises_setitem_run a p s t :
  tryraises s = Some t →
  tryraises_setitem a p s = (Ok tt, set_tryraises (Some (<[a := p]> t)) s).
Proof.
  intros Ht. unfold tryraises_setitem, self_tryraises, bind, get, of_option, modify, ret.
  cbn. rewrite Ht. reflexivity.
Qed.

(** The loop body of [match], run on an allocated instruction. *)
Lemma match_inst_unfold f a s i r t :
  insts s !! a = Some i → raises s = Some r → tryraises s = Some t →
  match_inst f a s =
    match i with
    | Raise None _ => (Ok tt, set_raises (Some (<[a := (VNone, VNone)]> r)) s)
    | TryRaise None _ => (Ok tt, set_tryraises (Some (<[a := (VNone, VNone)]> t)) s)
    | Raise (Some v) _ =>
        let s1 := set_queries (queries s ++ [v]) s in
        match res_bind (infer_constant f v) _break_constant with
        | Ok p => (Ok tt, set_raises (Some (<[a := p]> r)) s1)
        | Throw e => (Throw e, s1)
        end
    | TryRaise (Some v) _ =>
        let s1 := set_queries (queries s ++ [v]) s in
        match res_bind (infer_constant f v) _break_constant with
        | Ok p => (Ok tt, set_tryraises (Some (<[a := p]> t)) s1)
        | Throw e => (Throw e, s1)
        end
    | _ => (Throw (Err AttributeError), s)
    end.
Proof.
  intros Hi Hr Ht.
  unfold match_inst, bind, get_inst, get, of_option, lift, ret. cbn.
  rewrite Hi. cbn.
  destruct i as [[v|] l|[v|] l| | |]; cbn; try reflexivity.
  - destruct (infer_constant f v) as [c|e]; cbn; [|reflexivity].
    destruct (_break_constant c) as [[ty args]|e]; cbn; [|reflexivity].
    by apply raises_setitem_run.
  - by apply raises_setitem_run.
  - destruct (infer_constant f v) as [c|e]; cbn; [|reflexivity].
    destruct (_break_constant c) as [[ty args]|e]; cbn; [|reflexivity].
    by apply tryraises_setitem_run.
  - by apply tryraises_setitem_run.
Qed.

Lemma isinstance_at_Some heap cls a :
  isinstance_at heap cls a = true ↔ ∃ i, heap !! a = Some i ∧ cls i = true.
Proof.
  unfold isinstance_at. destruct (heap !! a) as [i|]; split.
  - eauto.
  - by intros (? & [= <-] & ?).
  - discriminate.
  - by intros (? & [=] & _).
Qed.

Lemma is_raise_like_cases i :
  is_raise_like i = true → is_Raise i = negb (is_TryRaise i).
Proof. by destruct i. Qed.

(** One successful iteration of the loop of [match]. *)
Lemma match_inst_ok f a s i r t s1 :
  insts s !! a = Some i → is_raise_like i = true →
  raises s = Some r → tryraises s = Some t →
  match_inst f a s = (Ok tt, s1) →
  insts s1 = insts s ∧ blocks s1 = blocks s ∧ block s1 = block s ∧
  queries s1 = queries s ++ option_list (operand_at (insts s) a) ∧
  ∃ p, (operand_at (insts s) a = None → p = (VNone, VNone)) ∧
       raises s1 = Some (if is_Raise i then <[a := p]> r else r) ∧
       tryraises s1 = Some (if is_Raise i then t else <[a := p]> t).
Proof.
  intros Hi Hlike Hr Ht Hrun.
  rewrite (match_inst_unfold f a s i r t Hi Hr Ht) in Hrun.
  unfold operand_at. rewrite Hi.
  destruct i as [[v|] l|[v|] l| | |]; try discriminate; cbn in Hrun |- *.
  - destruct (res_bind _ _) as [p|e]; [|discriminate].
    injection Hrun as <-. cbn. repeat split; try done. by exists p.
  - injection Hrun as <-. cbn. rewrite app_nil_r. repeat split; try done.
    by exists (VNone, VNone).
  - destruct (res_bind _ _) as [p|e]; [|discriminate].
    injection Hrun as <-. cbn. repeat split; try done. by exists p.
  - injection Hrun as <-. cbn. rewrite app_nil_r. repeat split; try done.
    by exists (VNone, VNone).
Qed.

(** The loop of [match] over raise-like instructions, when it completes. *)
Lemma match_loop f l : ∀ s r t s',
  Forall (λ a, isinstance_at (insts s) is_raise_like a = true) l →
  raises s = Some r → tryraises s = Some t →
  for_each (match_inst f) l s = (Ok tt, s') →
  insts s' = insts s ∧ blocks s' = blocks s ∧ block s' = block s ∧
  queries s' = queries s ++ omap (operand_at (insts s)) l ∧
  ∃ r' t', raises s' = Some r' ∧ tryraises s' = Some t' ∧
    (∀ a, is_Some (r' !! a) ↔
          is_Some (r !! a) ∨ (a ∈ l ∧ isinstance_at (insts s) is_Raise a = true)) ∧
    (∀ a, is_Some (t' !! a) ↔
          is_Some (t !! a) ∨ (a ∈ l ∧ isinstance_at (insts s) is_TryRaise a = true)) ∧
    (∀ a, operand_at (insts s) a = None →
          (a ∈ l ∧ isinstance_at (insts s) is_Raise a = true) ∨
            r !! a = Some (VNone, VNone) →
          r' !! a = Some (VNone, VNone)) ∧
    (∀ a, operand_at (insts s) a = None →
          (a ∈ l ∧ isinstance_at (insts s) is_TryRaise a = true) ∨
            t !! a = Some (VNone, VNone) →
          t' !! a = Some (VNone, VNone)).
Proof.
  induction l as [|a0 l IH]; intros s r t s' Hl Hr Ht Hrun.
  - injection Hrun as <-. cbn. rewrite app_nil_r. repeat split; try done.
    exists r, t. repeat split; try done.
    + by left.
    + intros [?|[Hin _]]; [done | by apply elem_of_nil in Hin].
    + by left.
    + intros [?|[Hin _]]; [done | by apply elem_of_nil in Hin].
    + intros a _ [[Hin _]|?]; [by apply elem_of_nil in Hin | done].
    + intros a _ [[Hin _]|?]; [by apply elem_of_nil in Hin | done].
  - apply Forall_cons in Hl as [Ha0 Hl].
    apply isinstance_at_Some in Ha0 as (i0 & Hi0 & Hlike).
    cbn in Hrun. unfold bind in Hrun.
    destruct (match_inst f a0 s) as [[[]|e] s1] eqn:Hstep; [|discriminate].
    destruct (match_inst_ok f a0 s i0 r t s1 Hi0 Hlike Hr Ht Hstep)
      as (HI & HB & Hblk & HQ & p & Hp & Hr1 & Ht1).
    rewrite <- HI in Hl.
    destruct (IH s1 _ _ s' Hl Hr1 Ht1 Hrun)
      as (HI' & HB' & Hblk' & HQ' & r' & t' & Hr' & Ht' & Hdr & Hdt & Hnr & Hnt).
    rewrite HI in HI', HQ', Hdr, Hdt, Hnr, Hnt.
    split; [congruence|]. split; [congruence|]. split; [congruence|].
    split.
    { rewrite HQ', HQ, <- app_assoc. f_equal. cbn.
      by destruct (operand_at (insts s) a0). }
    exists r', t'. split; [done|]. split; [done|].
    pose proof (is_raise_like_cases i0 Hlike) as Hcases.
    assert (HisR : ∀ cls, isinstance_at (insts s) cls a0 = cls i0).
    { intros cls. unfold isinstance_at. by rewrite Hi0. }
    repeat split.
    + rewrite Hdr. intros [Hs|[Hin Hc]].
      * destruct (is_Raise i0) eqn:HR; [|by left].
        destruct (decide (a = a0)) as [->|Hne].
        -- right. split; [by left|]. by rewrite HisR.
        -- left. by rewrite lookup_insert_ne in Hs.
      * right. split; [by right | done].
    + rewrite Hdr. intros [Hs|[Hin Hc]].
      * left. destruct (is_Raise i0); [|done].
        destruct (decide (a = a0)) as [->|Hne].
        -- rewrite lookup_insert_eq. eauto.
        -- by rewrite lookup_insert_ne.
      * apply elem_of_cons in Hin as [->|Hin]; [|by right].
        left. rewrite HisR in Hc. rewrite Hc, lookup_insert_eq. eauto.
    + rewrite Hdt. intros [Hs|[Hin Hc]].
      * destruct (is_Raise i0) eqn:HR; [by left|].
        destruct (decide (a = a0)) as [->|Hne].
        -- right. split; [by left|]. rewrite HisR.
           by destruct (is_TryRaise i0).
        -- left. by rewrite lookup_insert_ne in Hs.
      * right. split; [by right | done].
    + rewrite Hdt. intros [Hs|[Hin Hc]].
      * left. destruct (is_Raise i0); [done|].
        destruct (decide (a = a0)) as [->|Hne].
        -- rewrite lookup_insert_eq. eauto.
        -- by rewrite lookup_insert_ne.
      * apply elem_of_cons in Hin as [->|Hin]; [|by right].
        left. rewrite HisR in Hc. rewrite Hc in Hcases. cbn in Hcases.
        rewrite Hcases, lookup_insert_eq. eauto.
    + intros a Hop Hor. apply Hnr; [done|].
      destruct (decide (a = a0)) as [->|Hne].
      * destruct (is_Raise i0) eqn:HR.
        -- right. rewrite lookup_insert_eq. by rewrite (Hp Hop).
        -- destruct Hor as [[_ Hc]|?]; [|by right].
           rewrite HisR in Hc. congruence.
      * destruct Hor as [[Hin Hc]|Hlk].
        -- apply elem_of_cons in Hin as [?|Hin]; [done|]. by left.
        -- right. destruct (is_Raise i0); [|done]. by rewrite lookup_insert_ne.
    + intros a Hop Hor. apply Hnt; [done|].
      destruct (decide (a = a0)) as [->|Hne].
      * destruct (is_Raise i0) eqn:HR.
        -- destruct Hor as [[_ Hc]|?]; [|by right].
           rewrite HisR in Hc. rewrite Hc in Hcases. discriminate.
        -- right. rewrite lookup_insert_eq. by rewrite (Hp Hop).
      * destruct Hor as [[Hin Hc]|Hlk].
        -- apply elem_of_cons in Hin as [?|Hin]; [done|]. by left.
        -- right. destruct (is_Raise i0); [done|]. by rewrite lookup_insert_ne.
Qed.

Lemma elem_of_filter_bool {A} (P : A → bool) (l : list A) (x : A) :
  x ∈ List.filter P l ↔ x ∈ l ∧ P x = true.
Proof. rewrite !list_elem_of_In. apply filter_In. Qed.

Lemma omap_operand_filter heap l :
  omap (operand_at heap) (List.filter (isinstance_at heap is_raise_like) l)
  = omap (operand_at heap) l.
Proof.
  induction l as [|a l IH]; [done|]. cbn.
  unfold isinstance_at at 1, operand_at at 2.
  destruct (heap !! a) as [i|] eqn:Hi; [|done].
  destruct i as [[v|] ?|[v|] ?| | |]; cbn; try done;
    unfold operand_at at 1; rewrite Hi; by rewrite ?IH.
Qed.

(** [match] on an existing block: the attributes are reset, the loop runs
    over the raise-like instructions, and the answer is computed from the
    sizes of the two mappings. *)
Lemma match_unfold f b s blk :
  blocks s !! b = Some blk →
  match_ f b s =
    let s0 := set_block (Some b) (set_tryraises (Some ∅) (set_raises (Some ∅) s)) in
    match for_each (match_inst f)
            (List.filter (isinstance_at (insts s) is_raise_like) (body blk)) s0 with
    | (Ok _, s') =>
        match raises s', tryraises s' with
        | Some r, Some t => (Ok (bool_decide (0 < size r + size t)), s')
        | _, _ => (Throw (Err AttributeError), s')
        end
    | (Throw e, s') => (Throw e, s')
    end.
Proof.
  intros Hb. unfold match_, bind, modify, Block_find_insts, get_block, bind, get,
    of_option, ret. cbn. rewrite Hb. cbn.
  destruct (for_each _ _ _) as [[[]|e] s']; [|done].
  unfold self_raises, self_tryraises, bind, get, of_option, ret, throw. cbn.
  destruct (raises s'); [|done]. cbn. by destruct (tryraises s').
Qed.

(** What a successful [match] leaves behind. *)
Lemma match_ok f b s blk res s1 :
  blocks s !! b = Some blk →
  match_ f b s = (Ok res, s1) →
  insts s1 = insts s ∧ blocks s1 = blocks s ∧ block s1 = Some b ∧
  queries s1 = queries s ++ omap (operand_at (insts s)) (body blk) ∧
  ∃ r t, raises s1 = Some r ∧ tryraises s1 = Some t ∧
    res = bool_decide (0 < size r + size t) ∧
    (∀ a, is_Some (r !! a) ↔
          a ∈ body blk ∧ isinstance_at (insts s) is_Raise a = true) ∧
    (∀ a, is_Some (t !! a) ↔
          a ∈ body blk ∧ isinstance_at (insts s) is_TryRaise a = true) ∧
    (∀ a, a ∈ body blk → operand_at (insts s) a = None →
          isinstance_at (insts s) is_Raise a = true →
          r !! a = Some (VNone, VNone)) ∧
    (∀ a, a ∈ body blk → operand_at (insts s) a = None →
          isinstance_at (insts s) is_TryRaise a = true →
          t !! a = Some (VNone, VNone)).
Proof.
  intros Hb Hrun. rewrite (match_unfold f b s blk Hb) in Hrun. cbn zeta in Hrun.
  set (s0 := set_block _ _) in Hrun.
  set (l := List.filter _ _) in Hrun.
  destruct (for_each _ l s0) as [[[]|e] s'] eqn:Hloop; [|discriminate].
  assert (Hl : Forall (λ a, isinstance_at (insts s0) is_raise_like a = true) l).
  { apply Forall_forall. intros a Ha. by apply elem_of_filter_bool in Ha as [_ ?]. }
  destruct (match_loop f l s0 ∅ ∅ s' Hl eq_refl eq_refl Hloop)
    as (HI & HB & Hblk & HQ & r & t & Hr & Ht & Hdr & Hdt & Hnr & Hnt).
  rewrite Hr, Ht in Hrun. injection Hrun as <- <-.
  cbn in HI, HB, Hblk, HQ, Hdr, Hdt, Hnr, Hnt.
  assert (Hin : ∀ a cls, (∀ i, cls i = true → is_raise_like i = true) →
            (a ∈ l ∧ isinstance_at (insts s) cls a = true) ↔
            (a ∈ body blk ∧ isinstance_at (insts s) cls a = true)).
  { intros a cls Hcls. unfold l. rewrite elem_of_filter_bool. split; [tauto|].
    intros [Ha Hc]. repeat split; try done.
    apply isinstance_at_Some in Hc as (i & Hi & Hc).
    apply isinstance_at_Some. eauto. }
  assert (HR : ∀ i, is_Raise i = true → is_raise_like i = true).
  { intros i Hi. unfold is_raise_like. by rewrite Hi. }
  assert (HT : ∀ i, is_TryRaise i = true → is_raise_like i = true).
  { intros i Hi. unfold is_raise_like. rewrite Hi. by destruct (is_Raise i). }
  repeat split; try done.
  { rewrite HQ. unfold l. by rewrite omap_operand_filter. }
  assert (Hempty : ∀ a, ¬ is_Some ((∅ : gmap addr (value * value)) !! a)).
  { intros a Hs. rewrite lookup_empty in Hs. by destruct Hs. }
  exists r, t. split; [done|]. split; [done|]. split; [done|].
  split; [|split; [|split]].
  - intros a. rewrite Hdr, <- (Hin a is_Raise HR). specialize (Hempty a). tauto.
  - intros a. rewrite Hdt, <- (Hin a is_TryRaise HT). specialize (Hempty a). tauto.
  - intros a Ha Hop Hc. apply Hnr; [done|]. left. by apply (Hin a is_Raise HR).
  - intros a Ha Hop Hc. apply Hnt; [done|]. left. by apply (Hin a is_TryRaise HT).
Qed.

(** *** match never touches the store *)

Lemma keeps_store_ret {A} (x : A) : keeps_store (ret x).
Proof. by intros s. Qed.

Lemma keeps_store_throw {A} e : keeps_store (@throw _ A e).
Proof. by intros s. Qed.

Lemma keeps_store_lift {A} (x : Res A) : keeps_store (lift x).
Proof. by intros s. Qed.

Lemma keeps_store_get : keeps_store get.
Proof. by intros s. Qed.

Lemma keeps_store_of_option {A} (o : option A) k : keeps_store (of_option o k).
Proof. destruct o; by intros s. Qed.

Lemma keeps_store_modify (g : State → State) :
  (∀ s, insts (g s) = insts s ∧ blocks (g s) = blocks s) →
  keeps_store (modify g).
Proof. intros Hg s. apply Hg. Qed.

Lemma keeps_store_bind {A B} (m : M A) (k : A → M B) :
  keeps_store m → (∀ x, keeps_store (k x)) → keeps_store (bind m k).
Proof.
  intros Hm Hk s. unfold bind. specialize (Hm s).
  destruct (m s) as [[x|e] s1]; cbn in *; [|done].
  destruct (Hk x s1) as [-> ->]. done.
Qed.

Lemma keeps_store_for_each {A} (g : A → M unit) (l : list A) :
  (∀ x, keeps_store (g x)) → keeps_store (for_each g l).
Proof.
  intros Hg. induction l as [|x l IH]; cbn.
  - apply keeps_store_ret.
  - apply keeps_store_bind; auto.
Qed.

Create HintDb store.
#[local] Hint Resolve keeps_store_ret keeps_store_throw keeps_store_lift
  keeps_store_get keeps_store_of_option keeps_store_bind
  keeps_store_for_each : store.

Ltac keeps :=
  repeat first
    [ apply keeps_store_modify; intros ?; by cbn
    | apply keeps_store_bind; [|intros ?]
    | progress eauto with store ].

Lemma keeps_store_match_inst f a : keeps_store (match_inst f a).
Proof.
  unfold match_inst, get_inst. keeps.
  - destruct x0 as [v|]; [|keeps]. unfold call_infer_constant. keeps.
  - destruct x1 as [exc_type exc_args].
    unfold raises_setitem, tryraises_setitem, self_raises, self_tryraises.
    destruct (is_Raise x); [keeps|]. destruct (is_TryRaise x); keeps.
Qed.

Lemma keeps_store_match f b : keeps_store (match_ f b).
Proof.
  unfold match_, Block_find_insts, get_block, self_raises, self_tryraises.
  keeps. apply keeps_store_for_each. apply keeps_store_match_inst.
Qed.

End MatchFacts.

(** ** apply: properties *)

Section ApplyFacts.
Context `{PyClasses}.
Implicit Types (s : State) (a b : addr) (f : FunctionIR).
Implicit Types (r t : gmap addr (value * value)).

Lemma emitted_post heap heap' heap'' r t a a' :
  heap' ⊆ heap'' → emitted heap heap' r t a a' → emitted heap heap'' r t a a'.
Proof.
  intros Hsub. unfold emitted.
  destruct (r !! a) as [[ty args]|].
  - intros (Hnew & i & Hi & Hi'). split; [done|]. exists i.
    split; eapply lookup_weaken; eauto.
  - destruct (t !! a) as [[ty args]|]; [|done].
    intros (Hnew & i & Hi & Hi'). split; [done|]. exists i.
    split; eapply lookup_weaken; eauto.
Qed.

Lemma emitted_pre heap0 heap1 heap' r t a a' :
  heap0 ⊆ heap1 → emitted heap1 heap' r t a a' → emitted heap0 heap' r t a a'.
Proof.
  intros Hsub. unfold emitted.
  destruct (r !! a) as [[ty args]|].
  - intros (Hnew & Hrest). split; [|done]. eapply lookup_weaken_None; eauto.
  - destruct (t !! a) as [[ty args]|]; [|done].
    intros (Hnew & Hrest). split; [|done]. eapply lookup_weaken_None; eauto.
Qed.

Lemma Block_append_run nb a s nblk :
  blocks s !! nb = Some nblk →
  Block_append nb a s =
    (Ok tt, set_blocks (insert nb (mkBlock (scope nblk) (block_loc nblk)
                                     (body nblk ++ [a]))) s).
Proof.
  intros Hnb. unfold Block_append, get_block, bind, get, of_option, modify, ret.
  cbn. by rewrite Hnb.
Qed.

Lemma fresh_inst_None (heap : gmap addr Inst) : heap !! fresh (dom heap) = None.
Proof. apply not_elem_of_dom. apply is_fresh. Qed.

(** Emitting a new static instruction in place of [a]. *)
Lemma emit_new_run nb a s nblk i (k : Loc → Inst) :
  blocks s !! nb = Some nblk → insts s !! a = Some i →
  (i0 <- get_inst a ;; new <- new_inst (k (inst_loc i0)) ;; Block_append nb new) s =
    let a' := fresh (dom (insts s)) in
    (Ok tt, set_blocks (insert nb (mkBlock (scope nblk) (block_loc nblk)
                                     (body nblk ++ [a'])))
              (set_insts (insert a' (k (inst_loc i))) s)).
Proof.
  intros Hnb Hi. unfold get_inst, new_inst, bind, get, of_option, modify, ret.
  cbn. rewrite Hi. cbn. by rewrite Block_append_run with (nblk := nblk).
Qed.

(** One iteration of the loop of [apply]. *)
Lemma apply_inst_run nb a s r t nblk :
  raises s = Some r → tryraises s = Some t → blocks s !! nb = Some nblk →
  (is_Some (r !! a) ∨ is_Some (t !! a) → is_Some (insts s !! a)) →
  ∃ a' s1, apply_inst nb a s = (Ok tt, s1) ∧
    raises s1 = raises s ∧ tryraises s1 = tryraises s ∧
    block s1 = block s ∧ queries s1 = queries s ∧
    blocks s1 = <[nb := mkBlock (scope nblk) (block_loc nblk) (body nblk ++ [a'])]>
                  (blocks s) ∧
    insts s ⊆ insts s1 ∧
    emitted (insts s) (insts s1) r t a a'.
Proof.
  intros Hr Ht Hnb Halloc.
  assert (Hnew : ∀ i (k : Inst),
            insts s !! a = Some i →
            <[fresh (dom (insts s)) := k]> (insts s) !! a = Some i).
  { intros i k Hi. rewrite lookup_insert_ne; [done|]. intros Heq.
    pose proof (fresh_inst_None (insts s)) as Hnone. rewrite Heq in Hnone.
    congruence. }
  unfold apply_inst, self_raises, self_tryraises.
  unfold bind at 1 2. unfold get at 1. cbn. rewrite Hr. cbn.
  unfold emitted.
  destruct (r !! a) as [[ty args]|] eqn:Hra.
  - destruct Halloc as [i Hi]; [left; eauto|].
    rewrite (emit_new_run nb a s nblk i (StaticRaise ty args) Hnb Hi). cbn.
    eexists _, _. split; [done|]. cbn. conjs; try done.
    + apply insert_subseteq, fresh_inst_None.
    + apply fresh_inst_None.
    + exists i. rewrite lookup_insert_eq. split; [|done]. by apply Hnew.
  - unfold bind at 1 2. unfold get at 1. cbn. rewrite Ht. cbn.
    destruct (t !! a) as [[ty args]|] eqn:Hta.
    + destruct Halloc as [i Hi]; [right; eauto|].
      rewrite (emit_new_run nb a s nblk i (StaticTryRaise ty args) Hnb Hi). cbn.
      eexists _, _. split; [done|]. cbn. conjs; try done.
      * apply insert_subseteq, fresh_inst_None.
      * apply fresh_inst_None.
      * exists i. rewrite lookup_insert_eq. split; [|done]. by apply Hnew.
    + rewrite (Block_append_run nb a s nblk Hnb).
      eexists _, _. split; [done|]. cbn. by conjs.
Qed.

(** The loop of [apply]: it always completes, and adds to the new block
    one emitted instruction for each instruction it walks over. *)
Lemma apply_loop nb l : ∀ s r t nblk,
  raises s = Some r → tryraises s = Some t → blocks s !! nb = Some nblk →
  Forall (λ a, is_Some (r !! a) ∨ is_Some (t !! a) → is_Some (insts s !! a)) l →
  ∃ out s', for_each (apply_inst nb) l s = (Ok tt, s') ∧
    raises s' = raises s ∧ tryraises s' = tryraises s ∧
    block s' = block s ∧ queries s' = queries s ∧
    blocks s' = <[nb := mkBlock (scope nblk) (block_loc nblk) (body nblk ++ out)]>
                  (blocks s) ∧
    insts s ⊆ insts s' ∧
    Forall2 (emitted (insts s) (insts s') r t) l out.
Proof.
  induction l as [|a l IH]; intros s r t nblk Hr Ht Hnb Hl.
  - exists [], s. cbn. conjs; try done.
    rewrite app_nil_r. symmetry. apply insert_id. by destruct nblk.
  - apply Forall_cons in Hl as [Ha Hl].
    destruct (apply_inst_run nb a s r t nblk Hr Ht Hnb Ha)
      as (a' & s1 & Hstep & Hr1 & Ht1 & Hb1 & Hq1 & HB1 & HI1 & Hem).
    assert (Hnb1 : blocks s1 !! nb =
                   Some (mkBlock (scope nblk) (block_loc nblk) (body nblk ++ [a']))).
    { rewrite HB1. apply lookup_insert_eq. }
    assert (Hl1 : Forall (λ a, is_Some (r !! a) ∨ is_Some (t !! a) →
                               is_Some (insts s1 !! a)) l).
    { eapply Forall_impl; [exact Hl|]. cbn. intros x Hx Hm.
      destruct (Hx Hm) as [i Hi]. exists i. eapply lookup_weaken; eauto. }
    rewrite <- Hr1 in Hr. rewrite <- Ht1 in Ht.
    destruct (IH s1 r t _ Hr Ht Hnb1 Hl1)
      as (out & s' & Hrun & Hr' & Ht' & Hb' & Hq' & HB' & HI' & Hout).
    exists (a' :: out), s'. cbn. unfold bind. rewrite Hstep.
    conjs; try congruence.
    + rewrite HB', HB1. cbn. rewrite insert_insert_eq, <- app_assoc. done.
    + by etrans.
    + constructor.
      * eapply emitted_post; eauto.
      * eapply Forall2_impl; [exact Hout|]. intros x y. by apply emitted_pre.
Qed.

(** [apply] after the attributes have been set: it returns a block that
    did not exist before, holding one emitted instruction for each
    instruction of the block remembered by [match]. *)
Lemma apply_run s b blk r t :
  block s = Some b → blocks s !! b = Some blk →
  raises s = Some r → tryraises s = Some t →
  Forall (λ a, is_Some (r !! a) ∨ is_Some (t !! a) → is_Some (insts s !! a))
         (body blk) →
  ∃ nb s2 out, apply s = (Ok nb, s2) ∧
    blocks s !! nb = None ∧
    blocks s2 = <[nb := mkBlock (scope blk) (block_loc blk) out]> (blocks s) ∧
    insts s ⊆ insts s2 ∧
    Forall2 (emitted (insts s) (insts s2) r t) (body blk) out ∧
    raises s2 = raises s ∧ tryraises s2 = tryraises s ∧
    block s2 = block s ∧ queries s2 = queries s.
Proof.
  intros Hb Hblk Hr Ht Hl.
  set (nb := fresh (dom (blocks s))).
  assert (Hnb : blocks s !! nb = None).
  { apply not_elem_of_dom. apply is_fresh. }
  assert (Hne : nb ≠ b) by congruence.
  set (empty := mkBlock (scope blk) (block_loc blk) []).
  set (sb := set_blocks (insert nb empty)
               (set_blocks (insert nb (mkBlock (scope blk) (block_loc blk) (body blk))) s)).
  destruct (apply_loop nb (body blk) sb r t empty Hr Ht)
    as (out & s2 & Hrun & Hr2 & Ht2 & Hb2 & Hq2 & HB2 & HI2 & Hout);
    [apply lookup_insert_eq | exact Hl |].
  exists nb, s2, out. split.
  - unfold apply, self_block, Block_copy, Block_clear, get_block.
    unfold bind, get, of_option, modify, ret. cbn. rewrite Hb. cbn.
    rewrite Hblk. cbn. fold nb. rewrite lookup_insert_eq. cbn.
    rewrite lookup_insert_ne by done. rewrite lookup_insert_ne by done.
    rewrite Hblk. cbn. fold empty. fold sb. by rewrite Hrun.
  - conjs; try done.
    rewrite HB2. cbn. by rewrite !insert_insert_eq.
Qed.

(** *** apply leaves the existing objects alone *)

Lemma grows_outside_keeps {A} nb (m : M A) : keeps_store m → grows_outside nb m.
Proof. intros Hm s. destruct (Hm s) as [-> ->]. done. Qed.

Lemma grows_outside_bind {A B} nb (m : M A) (k : A → M B) :
  grows_outside nb m → (∀ x, grows_outside nb (k x)) → grows_outside nb (bind m k).
Proof.
  intros Hm Hk s. unfold bind. specialize (Hm s).
  destruct (m s) as [[x|e] s1]; cbn in *; [|done].
  destruct Hm as [HI HB]. destruct (Hk x s1) as [HI1 HB1]. split.
  - by etrans.
  - intros b Hb. rewrite HB1 by done. by apply HB.
Qed.

Lemma grows_outside_for_each {A} nb (g : A → M unit) (l : list A) :
  (∀ x, grows_outside nb (g x)) → grows_outside nb (for_each g l).
Proof.
  intros Hg. induction l as [|x l IH]; cbn.
  - apply grows_outside_keeps, keeps_store_ret.
  - apply grows_outside_bind; auto.
Qed.

Lemma grows_outside_get_block nb b : grows_outside nb (get_block b).
Proof.
  apply grows_outside_keeps. unfold get_block.
  apply keeps_store_bind; [apply keeps_store_get|].
  intros ?. apply keeps_store_of_option.
Qed.

Lemma grows_outside_get_inst nb a : grows_outside nb (get_inst a).
Proof.
  apply grows_outside_keeps. unfold get_inst.
  apply keeps_store_bind; [apply keeps_store_get|].
  intros ?. apply keeps_store_of_option.
Qed.

Lemma grows_outside_set_block nb (g : Block → Block) :
  grows_outside nb (blk <- get_block nb ;; modify (set_blocks (insert nb (g blk)))).
Proof.
  apply grows_outside_bind; [apply grows_outside_get_block|].
  intros blk s. cbn. split; [done|]. intros b Hb. by rewrite lookup_insert_ne.
Qed.

Lemma grows_outside_new_inst nb i : grows_outside nb (new_inst i).
Proof.
  intros s. unfold new_inst, bind, get, modify, ret. cbn. split; [|done].
  apply insert_subseteq, fresh_inst_None.
Qed.

Lemma grows_outside_emit nb a (k : Loc → Inst) :
  grows_outside nb
    (i <- get_inst a ;; new <- new_inst (k (inst_loc i)) ;; Block_append nb new).
Proof.
  apply grows_outside_bind; [apply grows_outside_get_inst|]. intros i.
  apply grows_outside_bind; [apply grows_outside_new_inst|]. intros new.
  apply (grows_outside_set_block nb
           (λ blk, mkBlock (scope blk) (block_loc blk) (body blk ++ [new]))).
Qed.

Lemma grows_outside_apply_inst nb a : grows_outside nb (apply_inst nb a).
Proof.
  unfold apply_inst.
  apply grows_outside_bind.
  { apply grows_outside_keeps. unfold self_raises.
    apply keeps_store_bind; [apply keeps_store_get|].
    intros ?. apply keeps_store_of_option. }
  intros r. destruct (r !! a) as [[ty args]|].
  { apply (grows_outside_emit nb a (StaticRaise ty args)). }
  apply grows_outside_bind.
  { apply grows_outside_keeps. unfold self_tryraises.
    apply keeps_store_bind; [apply keeps_store_get|].
    intros ?. apply keeps_store_of_option. }
  intros t. destruct (t !! a) as [[ty args]|].
  { apply (grows_outside_emit nb a (StaticTryRaise ty args)). }
  apply (grows_outside_set_block nb
           (λ blk, mkBlock (scope blk) (block_loc blk) (body blk ++ [a]))).
Qed.

Lemma returns_only_ret {A} (x : A) : returns_only x (ret x).
Proof. intros s y [= <-]. done. Qed.

Lemma returns_only_bind {A B} (x : B) (m : M A) (k : A → M B) :
  (∀ z, returns_only x (k z)) → returns_only x (bind m k).
Proof.
  intros Hk s y. unfold bind. destruct (m s) as [[z|e] s1]; cbn; [|done].
  apply Hk.
Qed.

(** The part of [apply] that runs once the new block has been created. *)
Lemma apply_fill_grows nb b :
  grows_outside nb
    (Block_clear nb ;; blk <- get_block b ;;
     for_each (apply_inst nb) (body blk) ;; ret nb).
Proof.
  apply grows_outside_bind.
  { apply (grows_outside_set_block nb
             (λ blk, mkBlock (scope blk) (block_loc blk) [])). }
  intros _. apply grows_outside_bind; [apply grows_outside_get_block|].
  intros blk. apply grows_outside_bind.
  { apply grows_outside_for_each. intros a. apply grows_outside_apply_inst. }
  intros _. apply grows_outside_keeps, keeps_store_ret.
Qed.

Lemma apply_unfold s :
  apply s =
    match block s with
    | None => (Throw (Err AttributeError), s)
    | Some b =>
        match blocks s !! b with
        | None => (Throw (Err (OtherError "dangling block")), s)
        | Some blk =>
            let nb := fresh (dom (blocks s)) in
            (Block_clear nb ;; blk <- get_block b ;;
             for_each (apply_inst nb) (body blk) ;; ret nb)
              (set_blocks (insert nb (mkBlock (scope blk) (block_loc blk) (body blk))) s)
        end
    end.
Proof.
  unfold apply, self_block, Block_copy, get_block.
  unfold bind at 1 2. unfold get at 1. cbn.
  destruct (block s) as [b|]; cbn; [|done].
  unfold bind at 1 2 3 4. unfold get at 1. cbn.
  destruct (blocks s !! b) as [blk|]; cbn; done.
Qed.

(** Whatever [apply] does, the objects that existed before it are as they
    were, and the block it returns did not exist before. *)
Lemma apply_preserves s :
  insts s ⊆ insts (apply s).2 ∧ blocks s ⊆ blocks (apply s).2 ∧
  ∀ nb, (apply s).1 = Ok nb → blocks s !! nb = None.
Proof.
  rewrite apply_unfold.
  destruct (block s) as [b|]; cbn; [|done].
  destruct (blocks s !! b) as [blk|] eqn:Hblk; cbn; [|done].
  set (nb := fresh (dom (blocks s))).
  assert (Hnb : blocks s !! nb = None).
  { apply not_elem_of_dom. apply is_fresh. }
  set (sa := set_blocks _ s).
  destruct (apply_fill_grows nb b sa) as [HI HB].
  split; [exact HI|]. split.
  - apply map_subseteq_spec. intros b' blk' Hb'.
    assert (b' ≠ nb) by congruence.
    rewrite HB by done. cbn. by rewrite lookup_insert_ne.
  - intros x Hx. enough (x = nb) by congruence.
    revert Hx. apply returns_only_bind. intros _.
    apply returns_only_bind. intros blk0.
    apply returns_only_bind. intros _. apply returns_only_ret.
Qed.

End ApplyFacts.

(** ** The rewrite: match followed by apply *)

Section RewriteFacts.
Context `{PyClasses}.
Implicit Types (s : State) (a b : addr) (f : FunctionIR).
Implicit Types (r t : gmap addr (value * value)).

Lemma filter_bool_none {A} (P : A → bool) (l : list A) :
  Forall (λ x, P x = false) l → List.filter P l = [].
Proof.
  induction 1 as [|x l Hx _ IH]; [done|]. cbn. by rewrite Hx.
Qed.

(** After a successful [match], [apply] runs to completion. *)
Lemma match_apply_run f b s blk res s1 :
  blocks s !! b = Some blk →
  match_ f b s = (Ok res, s1) →
  ∃ r t nb s2 out,
    raises s1 = Some r ∧ tryraises s1 = Some t ∧
    apply s1 = (Ok nb, s2) ∧ blocks s !! nb = None ∧
    blocks s2 = <[nb := mkBlock (scope blk) (block_loc blk) out]> (blocks s) ∧
    insts s ⊆ insts s2 ∧
    Forall2 (emitted (insts s) (insts s2) r t) (body blk) out.
Proof.
  intros Hb Hm.
  destruct (match_ok f b s blk res s1 Hb Hm)
    as (HI & HB & Hblk & _ & r & t & Hr & Ht & _ & Hdr & Hdt & _).
  assert (Hl : Forall (λ a, is_Some (r !! a) ∨ is_Some (t !! a) →
                            is_Some (insts s1 !! a)) (body blk)).
  { apply Forall_forall. intros a _ [Hs|Hs].
    - apply Hdr in Hs as [_ Hc].
      apply isinstance_at_Some in Hc as (i & Hi & _). rewrite HI. eauto.
    - apply Hdt in Hs as [_ Hc].
      apply isinstance_at_Some in Hc as (i & Hi & _). rewrite HI. eauto. }
  rewrite <- HB in Hb.
  destruct (apply_run s1 b blk r t Hblk Hb Hr Ht Hl)
    as (nb & s2 & out & Hrun & Hnb & HB2 & HI2 & Hout & _).
  rewrite HI in HI2, Hout. rewrite HB in Hnb, HB2.
  exists r, t, nb, s2, out. by conjs.
Qed.

(** C6: [match] answers true exactly when the two mappings together hold
    at least one entry, and on a block without any raise-like instruction
    it completes and answers false. *)
Theorem match_applicable f b s blk :
  blocks s !! b = Some blk →
  (∀ res s1, match_ f b s = (Ok res, s1) →
     ∃ r t, raises s1 = Some r ∧ tryraises s1 = Some t ∧
            (res = true ↔ size r + size t ≠ 0)) ∧
  (Forall (λ a, isinstance_at (insts s) is_raise_like a = false) (body blk) →
     ∃ s1, match_ f b s = (Ok false, s1)).
Proof.
  intros Hb. split.
  - intros res s1 Hm.
    destruct (match_ok f b s blk res s1 Hb Hm)
      as (_ & _ & _ & _ & r & t & Hr & Ht & -> & _).
    exists r, t. split; [done|]. split; [done|].
    rewrite bool_decide_eq_true. lia.
  - intros Hnone. rewrite (match_unfold f b s blk Hb).
    rewrite (filter_bool_none _ _ Hnone). cbn. eauto.
Qed.

(** C10: after a successful [match], [apply] returns a block with as many
    instructions as the original; position by position, the instruction
    is the original one or one new static instruction. *)
Theorem apply_same_length f b s blk res s1 :
  blocks s !! b = Some blk →
  match_ f b s = (Ok res, s1) →
  ∃ nb s2 nblk,
    apply s1 = (Ok nb, s2) ∧ blocks s2 !! nb = Some nblk ∧
    length (body nblk) = length (body blk) ∧
    Forall2 (λ a a', a' = a ∨
               (insts s !! a' = None ∧
                ∃ ty args loc, insts s2 !! a' = Some (StaticRaise ty args loc) ∨
                               insts s2 !! a' = Some (StaticTryRaise ty args loc)))
            (body blk) (body nblk).
Proof.
  intros Hb Hm.
  destruct (match_apply_run f b s blk res s1 Hb Hm)
    as (r & t & nb & s2 & out & _ & _ & Hrun & _ & HB2 & _ & Hout).
  exists nb, s2, (mkBlock (scope blk) (block_loc blk) out).
  split; [done|]. split; [rewrite HB2; apply lookup_insert_eq|]. cbn.
  split; [symmetry; by eapply Forall2_length|].
  eapply Forall2_impl; [exact Hout|]. intros a a'. unfold emitted.
  destruct (r !! a) as [[ty args]|].
  - intros (Hnew & i & _ & Hi'). right. split; [done|]. eauto.
  - destruct (t !! a) as [[ty args]|]; [|by left].
    intros (Hnew & i & _ & Hi'). right. split; [done|]. eauto.
Qed.

(** C7: after a successful [match], at the place of every matched
    instruction [apply] emits a new static instruction of the same variant,
    with the pair recorded by [match] and the location of the original. *)
Theorem apply_static_variant f b s blk res s1 :
  blocks s !! b = Some blk →
  match_ f b s = (Ok res, s1) →
  ∃ r t nb s2 nblk,
    raises s1 = Some r ∧ tryraises s1 = Some t ∧
    apply s1 = (Ok nb, s2) ∧ blocks s2 !! nb = Some nblk ∧
    ∀ n a, body blk !! n = Some a → is_Some (r !! a) ∨ is_Some (t !! a) →
      ∃ a' e loc exc_type exc_args,
        body nblk !! n = Some a' ∧ insts s !! a' = None ∧
        ((insts s !! a = Some (Raise e loc) ∧ r !! a = Some (exc_type, exc_args) ∧
          insts s2 !! a' = Some (StaticRaise exc_type exc_args loc)) ∨
         (insts s !! a = Some (TryRaise e loc) ∧ t !! a = Some (exc_type, exc_args) ∧
          insts s2 !! a' = Some (StaticTryRaise exc_type exc_args loc))).
Proof.
  intros Hb Hm.
  destruct (match_apply_run f b s blk res s1 Hb Hm)
    as (r & t & nb & s2 & out & Hr & Ht & Hrun & _ & HB2 & HI2 & Hout).
  destruct (match_ok f b s blk res s1 Hb Hm)
    as (_ & _ & _ & _ & r0 & t0 & Hr0 & Ht0 & _ & Hdr & Hdt & _).
  assert (r0 = r) as -> by congruence. assert (t0 = t) as -> by congruence.
  exists r, t, nb, s2, (mkBlock (scope blk) (block_loc blk) out).
  split; [done|]. split; [done|]. split; [done|].
  split; [rewrite HB2; apply lookup_insert_eq|]. cbn.
  intros n a Hn Hmatched.
  destruct (Forall2_lookup_l _ _ _ _ _ Hout Hn) as (a' & Hn' & Hem).
  unfold emitted in Hem.
  destruct (r !! a) as [[ty args]|] eqn:Hra.
  - destruct Hem as (Hnew & i & Hi & Hi').
    destruct (proj1 (Hdr a)) as [_ Hc]; [by rewrite Hra|].
    apply isinstance_at_Some in Hc as (i0 & Hi0 & Hc).
    pose proof (lookup_weaken _ _ _ _ Hi0 HI2) as Hi2.
    assert (i = i0) as -> by congruence.
    destruct i0 as [e loc| | | |]; try discriminate.
    exists a', e, loc, ty, args. split; [done|]. split; [done|]. by left.
  - destruct Hmatched as [[? ?]|Hs]; [discriminate|].
    destruct Hs as [[ty args] Hta]. rewrite Hta in Hem.
    destruct Hem as (Hnew & i & Hi & Hi').
    destruct (proj1 (Hdt a)) as [_ Hc]; [by rewrite Hta|].
    apply isinstance_at_Some in Hc as (i0 & Hi0 & Hc).
    pose proof (lookup_weaken _ _ _ _ Hi0 HI2) as Hi2.
    assert (i = i0) as -> by congruence.
    destruct i0 as [|e loc| | |]; try discriminate.
    exists a', e, loc, ty, args. split; [done|]. split; [done|]. by right.
Qed.

(** C4: a re-raise (a raise-like instruction without operand) is recorded
    by [match] with the pair [(None, None)] and no question to the oracle
    (the oracle is asked exactly about the operands present in the block),
    and [apply] puts in its place the static instruction of the same
    variant with [None] for type and arguments and the same location. *)
Theorem reraise_rewritten f b s blk res s1 n a loc :
  blocks s !! b = Some blk →
  match_ f b s = (Ok res, s1) →
  body blk !! n = Some a →
  insts s !! a = Some (Raise None loc) ∨ insts s !! a = Some (TryRaise None loc) →
  queries s1 = queries s ++ omap (operand_at (insts s)) (body blk) ∧
  operand_at (insts s) a = None ∧
  ∃ r t nb s2 nblk a',
    raises s1 = Some r ∧ tryraises s1 = Some t ∧
    apply s1 = (Ok nb, s2) ∧ blocks s2 !! nb = Some nblk ∧
    body nblk !! n = Some a' ∧
    (insts s !! a = Some (Raise None loc) →
       r !! a = Some (VNone, VNone) ∧
       insts s2 !! a' = Some (StaticRaise VNone VNone loc)) ∧
    (insts s !! a = Some (TryRaise None loc) →
       t !! a = Some (VNone, VNone) ∧
       insts s2 !! a' = Some (StaticTryRaise VNone VNone loc)).
Proof.
  intros Hb Hm Hn Hre.
  destruct (match_apply_run f b s blk res s1 Hb Hm)
    as (r & t & nb & s2 & out & Hr & Ht & Hrun & _ & HB2 & HI2 & Hout).
  destruct (match_ok f b s blk res s1 Hb Hm)
    as (_ & _ & _ & HQ & r0 & t0 & Hr0 & Ht0 & _ & Hdr & Hdt & Hnr & Hnt).
  assert (r0 = r) as -> by congruence. assert (t0 = t) as -> by congruence.
  assert (Hin : a ∈ body blk) by (eapply list_elem_of_lookup_2; eauto).
  assert (Hop : operand_at (insts s) a = None).
  { unfold operand_at. by destruct Hre as [-> | ->]. }
  split; [done|]. split; [done|].
  destruct (Forall2_lookup_l _ _ _ _ _ Hout Hn) as (a' & Hn' & Hem).
  exists r, t, nb, s2, (mkBlock (scope blk) (block_loc blk) out), a'.
  split; [done|]. split; [done|]. split; [done|].
  split; [rewrite HB2; apply lookup_insert_eq|]. cbn. split; [done|].
  unfold emitted in Hem. split.
  - intros Hi.
    assert (Hra : r !! a = Some (VNone, VNone)).
    { apply Hnr; try done. apply isinstance_at_Some. eauto. }
    split; [done|]. rewrite Hra in Hem. destruct Hem as (_ & i & Hi2 & Hi').
    pose proof (lookup_weaken _ _ _ _ Hi HI2) as Hi3.
    assert (i = Raise None loc) as -> by congruence. done.
  - intros Hi.
    assert (Hta : t !! a = Some (VNone, VNone)).
    { apply Hnt; try done. apply isinstance_at_Some. eauto. }
    split; [done|].
    destruct (r !! a) as [p|] eqn:Hra.
    { destruct (proj1 (Hdr a)) as [_ Hc]; [by rewrite Hra|].
      apply isinstance_at_Some in Hc as (i0 & Hi0 & Hc).
      rewrite Hi in Hi0. by injection Hi0 as <-. }
    rewrite Hta in Hem. destruct Hem as (_ & i & Hi2 & Hi').
    pose proof (lookup_weaken _ _ _ _ Hi HI2) as Hi3.
    assert (i = TryRaise None loc) as -> by congruence. done.
Qed.

Lemma filter_emitted (B l out : list addr) (heap heap' : gmap addr Inst) r t :
  Forall2 (emitted heap heap' r t) l out →
  Forall (λ a, a ∈ B) l →
  Forall (λ a, is_Some (heap !! a)) B →
  filter (λ a, a ∈ B ∧ (a ∉ dom r) ∧ (a ∉ dom t)) out
  = filter (λ a, (a ∉ dom r) ∧ (a ∉ dom t)) l.
Proof.
  intros Hout Hl HB. induction Hout as [|a a' l out Hem _ IH]; [done|].
  apply Forall_cons in Hl as [Ha Hl]. specialize (IH Hl).
  assert (Hfresh : heap !! a' = None → a' ∉ B).
  { intros Hnone Hin. rewrite Forall_forall in HB.
    destruct (HB a' Hin) as [? ?]. congruence. }
  unfold emitted in Hem.
  destruct (r !! a) as [[ty args]|] eqn:Hra.
  - destruct Hem as [Hnew _].
    rewrite filter_cons_False by (intros (? & ? & ?); by apply Hfresh).
    rewrite filter_cons_False; [done|].
    intros [Hr _]. apply not_elem_of_dom in Hr. congruence.
  - destruct (t !! a) as [[ty args]|] eqn:Hta.
    + destruct Hem as [Hnew _].
      rewrite filter_cons_False by (intros (? & ? & ?); by apply Hfresh).
      rewrite filter_cons_False; [done|].
      intros [_ Hr]. apply not_elem_of_dom in Hr. congruence.
    + subst a'. apply not_elem_of_dom in Hra, Hta.
      rewrite !filter_cons_True by done. by rewrite IH.
Qed.

(** C3: [apply] puts every instruction that is not a key of either mapping
    at its own place in the new block, the very same object with its
    contents as they were, and these instructions come in the new block in
    the order they have in the original. *)
Theorem apply_keeps_unmatched s b blk r t :
  block s = Some b → blocks s !! b = Some blk →
  raises s = Some r → tryraises s = Some t →
  Forall (λ a, is_Some (insts s !! a)) (body blk) →
  ∃ nb s2 nblk,
    apply s = (Ok nb, s2) ∧ blocks s2 !! nb = Some nblk ∧
    (∀ n a, body blk !! n = Some a → a ∉ dom r → a ∉ dom t →
       body nblk !! n = Some a ∧ insts s2 !! a = insts s !! a) ∧
    filter (λ a, a ∈ body blk ∧ (a ∉ dom r) ∧ (a ∉ dom t)) (body nblk)
    = filter (λ a, (a ∉ dom r) ∧ (a ∉ dom t)) (body blk).
Proof.
  intros Hself Hb Hr Ht Halloc.
  assert (Hl : Forall (λ a, is_Some (r !! a) ∨ is_Some (t !! a) →
                            is_Some (insts s !! a)) (body blk)).
  { eapply Forall_impl; [exact Halloc|]. by intros a Ha _. }
  destruct (apply_run s b blk r t Hself Hb Hr Ht Hl)
    as (nb & s2 & out & Hrun & _ & HB2 & HI2 & Hout & _).
  exists nb, s2, (mkBlock (scope blk) (block_loc blk) out).
  split; [done|]. split; [rewrite HB2; apply lookup_insert_eq|]. cbn. split.
  - intros n a Hn Hnr Hnt.
    destruct (Forall2_lookup_l _ _ _ _ _ Hout Hn) as (a' & Hn' & Hem).
    unfold emitted in Hem. apply not_elem_of_dom in Hnr, Hnt.
    rewrite Hnr, Hnt in Hem. subst a'. split; [done|].
    rewrite Forall_forall in Halloc.
    destruct (Halloc a) as [i Hi]; [eapply list_elem_of_lookup_2; eauto|].
    rewrite Hi. eapply lookup_weaken; eauto.
  - eapply filter_emitted; eauto. by apply Forall_forall.
Qed.

(** C8: whatever their outcome, [match] leaves every instruction and every
    block as it was, and [apply] leaves every instruction and every block
    that existed before it as it was; the block [apply] returns is one
    that did not exist before. *)
Theorem original_block_untouched :
  (∀ f b s, insts (match_ f b s).2 = insts s ∧ blocks (match_ f b s).2 = blocks s) ∧
  (∀ s, (∀ b blk, blocks s !! b = Some blk → blocks (apply s).2 !! b = Some blk) ∧
        (∀ a i, insts s !! a = Some i → insts (apply s).2 !! a = Some i) ∧
        (∀ nb, (apply s).1 = Ok nb → blocks s !! nb = None)).
Proof.
  split.
  - intros f b s. apply keeps_store_match.
  - intros s. destruct (apply_preserves s) as (HI & HB & Hnew).
    split; [|split; [|done]].
    + intros b blk Hb. eapply lookup_weaken; eauto.
    + intros a i Hi. eapply lookup_weaken; eauto.
Qed.

End RewriteFacts.

(** ** The theorems at concrete blocks *)

(** C6 on the block without raises. *)
Lemma match_applicable_witness :
  (∀ res s1, match_ ex_oracle 1%positive ex_plain = (Ok res, s1) →
     ∃ r t, raises s1 = Some r ∧ tryraises s1 = Some t ∧
            (res = true ↔ size r + size t ≠ 0)) ∧
  (Forall (λ a, isinstance_at (insts ex_plain) is_raise_like a = false) ex_plain_body →
     ∃ s1, match_ ex_oracle 1%positive ex_plain = (Ok false, s1)).
Proof.
  apply (match_applicable ex_oracle 1%positive ex_plain (ex_block ex_plain_body)).
  vm_compute. reflexivity.
Defined.

(** C10 on the mixed block. *)
Lemma apply_same_length_witness :
  ∃ nb s2 nblk,
    apply ex_mixed_matched = (Ok nb, s2) ∧ blocks s2 !! nb = Some nblk ∧
    length (body nblk) = length ex_mixed_body ∧
    Forall2 (λ a a', a' = a ∨
               (insts ex_mixed !! a' = None ∧
                ∃ ty args loc, insts s2 !! a' = Some (StaticRaise ty args loc) ∨
                               insts s2 !! a' = Some (StaticTryRaise ty args loc)))
            ex_mixed_body (body nblk).
Proof.
  apply (apply_same_length ex_oracle 7%positive ex_mixed (ex_block ex_mixed_body)
           true ex_mixed_matched).
  - vm_compute. reflexivity.
  - vm_compute. reflexivity.
Defined.

(** C7 on the mixed block. *)
Lemma apply_static_variant_witness :
  ∃ r t nb s2 nblk,
    raises ex_mixed_matched = Some r ∧ tryraises ex_mixed_matched = Some t ∧
    apply ex_mixed_matched = (Ok nb, s2) ∧ blocks s2 !! nb = Some nblk ∧
    ∀ n a, ex_mixed_body !! n = Some a → is_Some (r !! a) ∨ is_Some (t !! a) →
      ∃ a' e loc exc_type exc_args,
        body nblk !! n = Some a' ∧ insts ex_mixed !! a' = None ∧
        ((insts ex_mixed !! a = Some (Raise e loc) ∧
          r !! a = Some (exc_type, exc_args) ∧
          insts s2 !! a' = Some (StaticRaise exc_type exc_args loc)) ∨
         (insts ex_mixed !! a = Some (TryRaise e loc) ∧
          t !! a = Some (exc_type, exc_args) ∧
          insts s2 !! a' = Some (StaticTryRaise exc_type exc_args loc))).
Proof.
  apply (apply_static_variant ex_oracle 7%positive ex_mixed (ex_block ex_mixed_body)
           true ex_mixed_matched).
  - vm_compute. reflexivity.
  - vm_compute. reflexivity.
Defined.

(** C4 on the re-raise at the end of the mixed block. *)
Lemma reraise_rewritten_witness :
  queries ex_mixed_matched
  = queries ex_mixed ++ omap (operand_at (insts ex_mixed)) ex_mixed_body ∧
  operand_at (insts ex_mixed) 5%positive = None ∧
  ∃ r t nb s2 nblk a',
    raises ex_mixed_matched = Some r ∧ tryraises ex_mixed_matched = Some t ∧
    apply ex_mixed_matched = (Ok nb, s2) ∧ blocks s2 !! nb = Some nblk ∧
    body nblk !! 4 = Some a' ∧
    (insts ex_mixed !! 5%positive = Some (Raise None loc2) →
       r !! 5%positive = Some (VNone, VNone) ∧
       insts s2 !! a' = Some (StaticRaise VNone VNone loc2)) ∧
    (insts ex_mixed !! 5%positive = Some (TryRaise None loc2) →
       t !! 5%positive = Some (VNone, VNone) ∧
       insts s2 !! a' = Some (StaticTryRaise VNone VNone loc2)).
Proof.
  apply (reraise_rewritten ex_oracle 7%positive ex_mixed (ex_block ex_mixed_body)
           true ex_mixed_matched 4 5%positive loc2).
  - vm_compute. reflexivity.
  - vm_compute. reflexivity.
  - reflexivity.
  - left. vm_compute. reflexivity.
Defined.

(** C3 on the mixed block, with the mappings [match] has recorded. *)
Lemma apply_keeps_unmatched_witness :
  ∃ nb s2 nblk,
    apply ex_mixed_matched = (Ok nb, s2) ∧ blocks s2 !! nb = Some nblk ∧
    (∀ n a, ex_mixed_body !! n = Some a →
       a ∉ dom ex_mixed_raises → a ∉ dom ex_mixed_tryraises →
       body nblk !! n = Some a ∧ insts s2 !! a = insts ex_mixed_matched !! a) ∧
    filter (λ a, a ∈ ex_mixed_body ∧
                 (a ∉ dom ex_mixed_raises) ∧ (a ∉ dom ex_mixed_tryraises))
           (body nblk)
    = filter (λ a, (a ∉ dom ex_mixed_raises) ∧ (a ∉ dom ex_mixed_tryraises))
             ex_mixed_body.
Proof.
  apply (apply_keeps_unmatched ex_mixed_matched 7%positive (ex_block ex_mixed_body)
           ex_mixed_raises ex_mixed_tryraises).
  - vm_compute. reflexivity.
  - vm_compute. reflexivity.
  - vm_compute. reflexivity.
  - vm_compute. reflexivity.
  - repeat first
      [ apply Forall_nil_2
      | apply Forall_cons_2; [eexists; vm_compute; reflexivity|] ].
Defined.

(** The scenarios of the specification, run. *)
Example scenario_raise :
  ∃ s2, bind (match_ ex_oracle 1%positive) (λ _, apply) ex_raise = (Ok 2%positive, s2) ∧
    body <$> blocks s2 !! 2%positive = Some [1%positive; 3%positive] ∧
    insts s2 !! 1%positive = Some (Stmt "x = call MyError('bad')" loc1) ∧
    insts s2 !! 3%positive
    = Some (StaticRaise (bType c_MyError) (VTuple [VStr "bad"]) loc2) ∧
    body <$> blocks s2 !! 1%positive = Some [1%positive; 2%positive].
Proof. eexists. split; [vm_compute; reflexivity|]. vm_compute. done. Qed.

Example scenario_reraise :
  ∃ s2, bind (match_ no_oracle 1%positive) (λ _, apply) ex_reraise = (Ok 2%positive, s2) ∧
    body <$> blocks s2 !! 2%positive = Some [2%positive] ∧
    insts s2 !! 2%positive = Some (StaticTryRaise VNone VNone loc1) ∧
    queries s2 = [].
Proof. eexists. split; [vm_compute; reflexivity|]. vm_compute. done. Qed.

(** A constant that is not an exception makes [match] fail, with the block
    and its instructions as they were. *)
Example scenario_unsupported :
  let s := ex_state [(1%positive, Raise (Some "n") loc1)] 1%positive [1%positive] in
  (match_ ex_oracle 1%positive s).1 = Throw (NotImplementedError (VInt 3)) ∧
  blocks (match_ ex_oracle 1%positive s).2 = blocks s ∧
  insts (match_ ex_oracle 1%positive s).2 = insts s.
Proof. vm_compute. done. Qed.

(** ** Further properties of the classifier *)

Section ClassifierMore.
Context `{PyClasses}.

(** X1: Whatever the classifier returns, the first component is an exception
    type and the second is [None] or a tuple. *)
Theorem break_constant_result_shape (const : value) (r : value * value) :
  _break_constant const = Ok r →
  _is_exception_type r.1 = true ∧ (r.2 = VNone ∨ ∃ args, r.2 = VTuple args).
Proof.
  destruct (is_tuple const) eqn:Ht.
  - destruct const as [| | | | | |items|]; try discriminate.
    destruct items as [|c0 rest]; [discriminate|].
    rewrite break_constant_tuple_cons.
    destruct (_is_exception_type c0) eqn:He; [|discriminate].
    destruct rest as [|c1 rest]; [discriminate|]. cbn.
    destruct (py_tuple c1) as [args|e]; [|discriminate]. cbn.
    intros [= <-]. cbn. split; [done|]. right. eauto.
  - rewrite (break_constant_not_tuple _ Ht).
    destruct (_is_exception_type const) eqn:He; [|discriminate].
    intros [= <-]. cbn. split; [done|]. by left.
Qed.

(** X2: Only the first two elements of a tuple are looked at: tuples that
    agree on them are classified alike. *)
Theorem break_constant_first_two (c0 c1 : value) (rest rest' : list value) :
  _break_constant (VTuple (c0 :: c1 :: rest))
  = _break_constant (VTuple (c0 :: c1 :: rest')).
Proof. by rewrite !break_constant_tuple_cons. Qed.

End ClassifierMore.

(** X1 at [(MyError, ["bad"])]. *)
Lemma break_constant_result_shape_witness :
  _is_exception_type (bType c_MyError, (VTuple [VStr "bad"] : bvalue)).1 = true ∧
  ((bType c_MyError, (VTuple [VStr "bad"] : bvalue)).2 = VNone ∨
   ∃ args, (bType c_MyError, (VTuple [VStr "bad"] : bvalue)).2 = VTuple args).
Proof.
  apply (@break_constant_result_shape builtins
           (VTuple [bType c_MyError; VList [VStr "bad"]])).
  reflexivity.
Defined.

(** ** Further properties of match *)

Section MatchMore.
Context `{PyClasses}.
Implicit Types (s : State) (a b : addr) (f : FunctionIR).
Implicit Types (r t : gmap addr (value * value)).

(** One iteration of the loop of [match] on a raise-like instruction: it
    asks the oracle about the operand, if there is one, and either stores
    the pair computed or raises what the resolution raised. *)
Lemma match_inst_step f a s i r t :
  insts s !! a = Some i → is_raise_like i = true →
  raises s = Some r → tryraises s = Some t →
  ∃ s1, insts s1 = insts s ∧ blocks s1 = blocks s ∧ block s1 = block s ∧
    queries s1 = queries s ++ option_list (operand_at (insts s) a) ∧
    match expected f (insts s) a with
    | Ok p => match_inst f a s = (Ok tt, s1) ∧
              raises s1 = Some (if is_Raise i then <[a := p]> r else r) ∧
              tryraises s1 = Some (if is_Raise i then t else <[a := p]> t)
    | Throw e => match_inst f a s = (Throw e, s1)
    end.
Proof.
  intros Hi Hlike Hr Ht.
  rewrite (match_inst_unfold f a s i r t Hi Hr Ht).
  unfold expected, operand_at, resolve. rewrite Hi.
  destruct i as [[v|] l|[v|] l| | |]; try discriminate; cbn.
  - destruct (res_bind _ _) as [p|e].
    + exists (set_raises (Some (<[a := p]> r)) (set_queries (queries s ++ [v]) s)).
      by conjs.
    + exists (set_queries (queries s ++ [v]) s). by conjs.
  - exists (set_raises (Some (<[a := (VNone, VNone)]> r)) s). cbn.
    rewrite app_nil_r. by conjs.
  - destruct (res_bind _ _) as [p|e].
    + exists (set_tryraises (Some (<[a := p]> t)) (set_queries (queries s ++ [v]) s)).
      by conjs.
    + exists (set_queries (queries s ++ [v]) s). by conjs.
  - exists (set_tryraises (Some (<[a := (VNone, VNone)]> t)) s). cbn.
    rewrite app_nil_r. by conjs.
Qed.

Lemma expected_not_raise_like f heap a :
  isinstance_at heap is_raise_like a = false → expected f heap a = Ok (VNone, VNone).
Proof.
  unfold isinstance_at, expected, operand_at.
  destruct (heap !! a) as [[[v|] l|[v|] l| | |]|]; cbn; congruence.
Qed.

Lemma expected_Throw_operand f heap a e :
  expected f heap a = Throw e →
  ∃ v, operand_at heap a = Some v ∧ resolve f v = Throw e.
Proof.
  unfold expected. destruct (operand_at heap a) as [v|]; [eauto | discriminate].
Qed.

(** The loop of [match] stops at the first instruction whose operand does
    not resolve, with the exception of that resolution. *)
Lemma match_loop_abort f pre : ∀ s r t a post e,
  Forall (λ x, isinstance_at (insts s) is_raise_like x = true) (pre ++ a :: post) →
  raises s = Some r → tryraises s = Some t →
  Forall (λ x, ∃ p, expected f (insts s) x = Ok p) pre →
  expected f (insts s) a = Throw e →
  ∃ s', for_each (match_inst f) (pre ++ a :: post) s = (Throw e, s') ∧
        queries s' = queries s ++ omap (operand_at (insts s)) (pre ++ [a]).
Proof.
  induction pre as [|x pre IH]; intros s r t a post e Hl Hr Ht Hpre Ha.
  - cbn in Hl |- *. apply Forall_cons in Hl as [Hx _].
    apply isinstance_at_Some in Hx as (i & Hi & Hlike).
    destruct (match_inst_step f a s i r t Hi Hlike Hr Ht)
      as (s1 & _ & _ & _ & HQ & Hstep).
    rewrite Ha in Hstep. exists s1. unfold bind. rewrite Hstep.
    split; [done|]. rewrite HQ. by destruct (operand_at (insts s) a).
  - cbn in Hl |- *. apply Forall_cons in Hl as [Hx Hl].
    apply Forall_cons in Hpre as [[p Hp] Hpre].
    apply isinstance_at_Some in Hx as (i & Hi & Hlike).
    destruct (match_inst_step f x s i r t Hi Hlike Hr Ht)
      as (s1 & HI & _ & _ & HQ & Hstep).
    rewrite Hp in Hstep. destruct Hstep as (Hstep & Hr1 & Ht1).
    rewrite <- HI in Hl, Hpre, Ha.
    destruct (IH s1 _ _ a post e Hl Hr1 Ht1 Hpre Ha) as (s' & Hrun & HQ').
    exists s'. unfold bind. rewrite Hstep. split; [done|].
    rewrite HQ', HQ, HI, <- app_assoc. f_equal.
    by destruct (operand_at (insts s) x).
Qed.

(** The loop of [match] completes when every operand resolves. *)
Lemma match_loop_total f l : ∀ s r t,
  Forall (λ x, isinstance_at (insts s) is_raise_like x = true) l →
  raises s = Some r → tryraises s = Some t →
  Forall (λ x, ∃ p, expected f (insts s) x = Ok p) l →
  ∃ s', for_each (match_inst f) l s = (Ok tt, s').
Proof.
  induction l as [|x l IH]; intros s r t Hl Hr Ht Hok; [by exists s|].
  apply Forall_cons in Hl as [Hx Hl]. apply Forall_cons in Hok as [[p Hp] Hok].
  apply isinstance_at_Some in Hx as (i & Hi & Hlike).
  destruct (match_inst_step f x s i r t Hi Hlike Hr Ht)
    as (s1 & HI & _ & _ & _ & Hstep).
  rewrite Hp in Hstep. destruct Hstep as (Hstep & Hr1 & Ht1).
  rewrite <- HI in Hl, Hok.
  destruct (IH s1 _ _ Hl Hr1 Ht1 Hok) as (s' & Hrun).
  exists s'. cbn. unfold bind. by rewrite Hstep.
Qed.

(** When the loop of [match] fails, it is with the exception raised by the
    resolution of one of the operands. *)
Lemma match_loop_fail f l : ∀ s r t e s',
  Forall (λ x, isinstance_at (insts s) is_raise_like x = true) l →
  raises s = Some r → tryraises s = Some t →
  for_each (match_inst f) l s = (Throw e, s') →
  ∃ x, x ∈ l ∧ expected f (insts s) x = Throw e.
Proof.
  induction l as [|x l IH]; intros s r t e s' Hl Hr Ht Hrun; [discriminate|].
  apply Forall_cons in Hl as [Hx Hl].
  apply isinstance_at_Some in Hx as (i & Hi & Hlike).
  destruct (match_inst_step f x s i r t Hi Hlike Hr Ht)
    as (s1 & HI & _ & _ & _ & Hstep).
  cbn in Hrun. unfold bind in Hrun.
  destruct (expected f (insts s) x) as [p|e0] eqn:Hp.
  - destruct Hstep as (Hstep & Hr1 & Ht1). rewrite Hstep in Hrun.
    rewrite <- HI in Hl.
    destruct (IH s1 _ _ e s' Hl Hr1 Ht1 Hrun) as (y & Hy & Hey).
    exists y. split; [by right|]. by rewrite <- HI.
  - rewrite Hstep in Hrun. injection Hrun as <- <-.
    exists x. split; [by left | done].
Qed.

(** When the loop of [match] completes, every operand has resolved and the
    mapping of each variant holds, for each of its instructions, the pair
    its operand resolves to. *)
Lemma match_loop_resolved f l : ∀ s r t s',
  Forall (λ x, isinstance_at (insts s) is_raise_like x = true) l →
  raises s = Some r → tryraises s = Some t →
  for_each (match_inst f) l s = (Ok tt, s') →
  Forall (λ x, ∃ p, expected f (insts s) x = Ok p) l ∧
  ∃ r' t', raises s' = Some r' ∧ tryraises s' = Some t' ∧
    (∀ a, (a ∈ l ∧ isinstance_at (insts s) is_Raise a = true) ∨
            (∃ p, expected f (insts s) a = Ok p ∧ r !! a = Some p) →
          ∃ p, expected f (insts s) a = Ok p ∧ r' !! a = Some p) ∧
    (∀ a, (a ∈ l ∧ isinstance_at (insts s) is_TryRaise a = true) ∨
            (∃ p, expected f (insts s) a = Ok p ∧ t !! a = Some p) →
          ∃ p, expected f (insts s) a = Ok p ∧ t' !! a = Some p).
Proof.
  induction l as [|x l IH]; intros s r t s' Hl Hr Ht Hrun.
  - injection Hrun as <-. split; [done|]. exists r, t.
    split; [done|]. split; [done|].
    split; (intros a [[Hin _]|?]; [by apply elem_of_nil in Hin | done]).
  - apply Forall_cons in Hl as [Hx Hl].
    apply isinstance_at_Some in Hx as (i & Hi & Hlike).
    destruct (match_inst_step f x s i r t Hi Hlike Hr Ht)
      as (s1 & HI & _ & _ & _ & Hstep).
    cbn in Hrun. unfold bind in Hrun.
    destruct (expected f (insts s) x) as [p|e0] eqn:Hp;
      [|by rewrite Hstep in Hrun].
    destruct Hstep as (Hstep & Hr1 & Ht1). rewrite Hstep in Hrun.
    rewrite <- HI in Hl.
    destruct (IH s1 _ _ s' Hl Hr1 Ht1 Hrun)
      as (Hok & r' & t' & Hr' & Ht' & Hrec & Htrec).
    rewrite HI in Hok, Hrec, Htrec.
    split; [apply Forall_cons; eauto|].
    exists r', t'. split; [done|]. split; [done|].
    pose proof (is_raise_like_cases i Hlike) as Hcases.
    assert (HisR : ∀ cls, isinstance_at (insts s) cls x = cls i).
    { intros cls. unfold isinstance_at. by rewrite Hi. }
    split.
    + intros a Hor. apply Hrec.
      destruct (decide (a = x)) as [->|Hne].
      * destruct (is_Raise i) eqn:HR.
        -- right. exists p. by rewrite lookup_insert_eq.
        -- destruct Hor as [[_ Hc]|?]; [|by right].
           rewrite HisR in Hc. congruence.
      * destruct Hor as [[Hin Hc]|(q & Hq & Hlk)].
        -- apply elem_of_cons in Hin as [?|Hin]; [done|]. by left.
        -- right. exists q. split; [done|].
           destruct (is_Raise i); [|done]. by rewrite lookup_insert_ne.
    + intros a Hor. apply Htrec.
      destruct (decide (a = x)) as [->|Hne].
      * destruct (is_Raise i) eqn:HR.
        -- destruct Hor as [[_ Hc]|?]; [|by right].
           rewrite HisR in Hc. rewrite Hc in Hcases. discriminate.
        -- right. exists p. by rewrite lookup_insert_eq.
      * destruct Hor as [[Hin Hc]|(q & Hq & Hlk)].
        -- apply elem_of_cons in Hin as [?|Hin]; [done|]. by left.
        -- right. exists q. split; [done|].
           destruct (is_Raise i); [done|]. by rewrite lookup_insert_ne.
Qed.

Lemma operand_raise_like heap a v :
  operand_at heap a = Some v → isinstance_at heap is_raise_like a = true.
Proof.
  unfold operand_at, isinstance_at.
  destruct (heap !! a) as [[[w|] l|[w|] l| | |]|]; cbn; congruence.
Qed.

Lemma expected_ok_iff f heap (l : list addr) :
  Forall (λ x, ∃ p, expected f heap x = Ok p) l ↔
  ∀ x v, x ∈ l → operand_at heap x = Some v → ∃ p, resolve f v = Ok p.
Proof.
  rewrite Forall_forall. unfold expected. split.
  - intros Hl x v Hx Hv. specialize (Hl x Hx). by rewrite Hv in Hl.
  - intros Hl x Hx. destruct (operand_at heap x) as [v|] eqn:Hv; eauto.
Qed.

Lemma raise_like_filter heap (l : list addr) :
  Forall (λ x, isinstance_at heap is_raise_like x = true)
         (List.filter (isinstance_at heap is_raise_like) l).
Proof. apply Forall_forall. intros x Hx. by apply elem_of_filter_bool in Hx as [_ ?]. Qed.

(** X3: [match] completes exactly when every operand present in the block
    resolves: the oracle gives a constant for it and the classifier
    accepts that constant. *)
Theorem match_succeeds_iff f b s blk :
  blocks s !! b = Some blk →
  (∃ res s1, match_ f b s = (Ok res, s1)) ↔
  (∀ a v, a ∈ body blk → operand_at (insts s) a = Some v →
          ∃ p, resolve f v = Ok p).
Proof.
  intros Hb. rewrite (match_unfold f b s blk Hb). cbn zeta.
  set (s0 := set_block _ _). set (l := List.filter _ _).
  pose proof (raise_like_filter (insts s) (body blk)) as Hl. fold l in Hl.
  split.
  - intros (res & s1 & Hrun) a v Ha Hv.
    destruct (for_each _ l s0) as [[[]|e] s'] eqn:Hloop; [|discriminate].
    destruct (match_loop_resolved f l s0 ∅ ∅ s' Hl eq_refl eq_refl Hloop) as [Hok _].
    cbn in Hok. rewrite expected_ok_iff in Hok. apply (Hok a v); [|done].
    apply elem_of_filter_bool. split; [done|]. by eapply operand_raise_like.
  - intros Hall.
    assert (Hok : Forall (λ x, ∃ p, expected f (insts s0) x = Ok p) l).
    { apply expected_ok_iff. intros x v Hx Hv. apply (Hall x v); [|done].
      by apply elem_of_filter_bool in Hx as [? _]. }
    destruct (match_loop_total f l s0 ∅ ∅ Hl eq_refl eq_refl Hok) as (s' & Hloop).
    rewrite Hloop.
    destruct (match_loop f l s0 ∅ ∅ s' Hl eq_refl eq_refl Hloop)
      as (_ & _ & _ & _ & r & t & -> & -> & _).
    eauto.
Qed.

(** X4: When [match] fails, the exception is the one raised while resolving
    the operand of some instruction of the block: by the oracle, or by the
    classifier on the oracle's constant. *)
Theorem match_failure_origin f b s blk e s1 :
  blocks s !! b = Some blk →
  match_ f b s = (Throw e, s1) →
  ∃ a v, a ∈ body blk ∧ operand_at (insts s) a = Some v ∧ resolve f v = Throw e.
Proof.
  intros Hb. rewrite (match_unfold f b s blk Hb). cbn zeta.
  set (s0 := set_block _ _). set (l := List.filter _ _).
  pose proof (raise_like_filter (insts s) (body blk)) as Hl. fold l in Hl.
  intros Hrun.
  destruct (for_each _ l s0) as [[[]|e0] s'] eqn:Hloop.
  - destruct (match_loop f l s0 ∅ ∅ s' Hl eq_refl eq_refl Hloop)
      as (_ & _ & _ & _ & r & t & Hr & Ht & _).
    rewrite Hr, Ht in Hrun. discriminate.
  - injection Hrun as <- <-.
    destruct (match_loop_fail f l s0 ∅ ∅ e0 s' Hl eq_refl eq_refl Hloop)
      as (x & Hx & Hex).
    apply expected_Throw_operand in Hex as (v & Hv & Hres).
    exists x, v. split; [|done]. by apply elem_of_filter_bool in Hx as [? _].
Qed.

(** X5: [match] stops at the first instruction whose operand does not resolve:
    it fails with the exception of that resolution, and the oracle has been
    asked about the operands up to that one and about none after it. *)
Theorem match_aborts_at_first_failure f b s blk pre a post v e :
  blocks s !! b = Some blk →
  body blk = pre ++ a :: post →
  (∀ x w, x ∈ pre → operand_at (insts s) x = Some w → ∃ p, resolve f w = Ok p) →
  operand_at (insts s) a = Some v →
  resolve f v = Throw e →
  ∃ s1, match_ f b s = (Throw e, s1) ∧
        queries s1 = queries s ++ omap (operand_at (insts s)) pre ++ [v] ∧
        insts s1 = insts s ∧ blocks s1 = blocks s.
Proof.
  intros Hb Hbody Hpre Hv He.
  pose proof (keeps_store_match f b s) as Hkeep.
  rewrite (match_unfold f b s blk Hb) in Hkeep |- *. cbn zeta in Hkeep |- *.
  set (s0 := set_block _ _) in *.
  rewrite Hbody, List.filter_app in Hkeep |- *. cbn [List.filter] in Hkeep |- *.
  rewrite (operand_raise_like _ _ _ Hv) in Hkeep |- *.
  set (fpre := List.filter _ pre) in *. set (fpost := List.filter _ post) in *.
  assert (Hl : Forall (λ x, isinstance_at (insts s0) is_raise_like x = true)
                      (fpre ++ a :: fpost)).
  { apply Forall_app. split; [apply raise_like_filter|].
    apply Forall_cons. split; [by eapply operand_raise_like|].
    apply raise_like_filter. }
  assert (Hok : Forall (λ x, ∃ p, expected f (insts s0) x = Ok p) fpre).
  { apply expected_ok_iff. intros x w Hx Hw. apply (Hpre x w); [|done].
    by apply elem_of_filter_bool in Hx as [? _]. }
  assert (Ha : expected f (insts s0) a = Throw e).
  { unfold expected. cbn. by rewrite Hv. }
  destruct (match_loop_abort f fpre s0 ∅ ∅ a fpost e Hl eq_refl eq_refl Hok Ha)
    as (s' & Hloop & HQ).
  rewrite Hloop in Hkeep |- *. exists s'. split; [done|]. split; [|done].
  rewrite HQ. cbn. rewrite omap_app. cbn. rewrite Hv. unfold fpre.
  by rewrite omap_operand_filter, app_assoc.
Qed.

(** X6: After a successful [match], each mapping holds, for every instruction
    of its variant in the block that has an operand, the pair obtained by
    breaking down the constant the oracle gives for that operand. *)
Theorem match_records_resolution f b s blk res s1 :
  blocks s !! b = Some blk →
  match_ f b s = (Ok res, s1) →
  ∃ r t, raises s1 = Some r ∧ tryraises s1 = Some t ∧
    ∀ a v loc, a ∈ body blk →
      (insts s !! a = Some (Raise (Some v) loc) →
         ∃ const p, infer_constant f v = Ok const ∧
                    _break_constant const = Ok p ∧ r !! a = Some p) ∧
      (insts s !! a = Some (TryRaise (Some v) loc) →
         ∃ const p, infer_constant f v = Ok const ∧
                    _break_constant const = Ok p ∧ t !! a = Some p).
Proof.
  intros Hb Hrun. rewrite (match_unfold f b s blk Hb) in Hrun. cbn zeta in Hrun.
  set (s0 := set_block _ _) in Hrun. set (l := List.filter _ _) in Hrun.
  pose proof (raise_like_filter (insts s) (body blk)) as Hl. fold l in Hl.
  destruct (for_each _ l s0) as [[[]|e] s'] eqn:Hloop; [|discriminate].
  destruct (match_loop_resolved f l s0 ∅ ∅ s' Hl eq_refl eq_refl Hloop)
    as (_ & r & t & Hr & Ht & Hrec & Htrec).
  rewrite Hr, Ht in Hrun. injection Hrun as <- <-. cbn in Hrec, Htrec.
  exists r, t. split; [done|]. split; [done|].
  assert (Hres : ∀ a v p, operand_at (insts s) a = Some v →
            expected f (insts s) a = Ok p →
            ∃ const, infer_constant f v = Ok const ∧ _break_constant const = Ok p).
  { intros a v p Hv. unfold expected, resolve. rewrite Hv.
    destruct (infer_constant f v) as [c|]; [|discriminate]. cbn. eauto. }
  intros a v loc Ha. split; intros Hi.
  - destruct (Hrec a) as (p & Hp & Hlk).
    { left. split.
      - apply elem_of_filter_bool. split; [done|]. apply isinstance_at_Some. eauto.
      - apply isinstance_at_Some. eauto. }
    destruct (Hres a v p) as (c & Hc & Hbc); [|done|].
    { unfold operand_at. by rewrite Hi. }
    by exists c, p.
  - destruct (Htrec a) as (p & Hp & Hlk).
    { left. split.
      - apply elem_of_filter_bool. split; [done|]. apply isinstance_at_Some. eauto.
      - apply isinstance_at_Some. eauto. }
    destruct (Hres a v p) as (c & Hc & Hbc); [|done|].
    { unfold operand_at. by rewrite Hi. }
    by exists c, p.
Qed.

(** X7: After a successful [match], the keys of [raises] are the [Raise]
    instructions of the block and the keys of [tryraises] its [TryRaise]
    instructions, so no instruction is a key of both, and [match] has
    answered true exactly when the block holds a raise-like instruction. *)
Theorem match_keys f b s blk res s1 :
  blocks s !! b = Some blk →
  match_ f b s = (Ok res, s1) →
  ∃ r t, raises s1 = Some r ∧ tryraises s1 = Some t ∧ block s1 = Some b ∧
    (∀ a, a ∈ dom r ↔ a ∈ body blk ∧ ∃ e loc, insts s !! a = Some (Raise e loc)) ∧
    (∀ a, a ∈ dom t ↔ a ∈ body blk ∧ ∃ e loc, insts s !! a = Some (TryRaise e loc)) ∧
    dom r ## dom t ∧
    (res = true ↔ ∃ a, a ∈ body blk ∧ isinstance_at (insts s) is_raise_like a = true).
Proof.
  intros Hb Hm.
  destruct (match_ok f b s blk res s1 Hb Hm)
    as (_ & _ & Hblk & _ & r & t & Hr & Ht & -> & Hdr & Hdt & _).
  exists r, t. split; [done|]. split; [done|]. split; [done|].
  assert (HR : ∀ a, isinstance_at (insts s) is_Raise a = true ↔
                    ∃ e loc, insts s !! a = Some (Raise e loc)).
  { intros a. rewrite isinstance_at_Some. split.
    - intros ([| | | |] & Hi & Hc); try discriminate. eauto.
    - intros (e & loc & Hi). eauto. }
  assert (HT : ∀ a, isinstance_at (insts s) is_TryRaise a = true ↔
                    ∃ e loc, insts s !! a = Some (TryRaise e loc)).
  { intros a. rewrite isinstance_at_Some. split.
    - intros ([| | | |] & Hi & Hc); try discriminate. eauto.
    - intros (e & loc & Hi). eauto. }
  assert (Kr : ∀ a, a ∈ dom r ↔ a ∈ body blk ∧ ∃ e loc, insts s !! a = Some (Raise e loc)).
  { intros a. by rewrite elem_of_dom, Hdr, HR. }
  assert (Kt : ∀ a, a ∈ dom t ↔ a ∈ body blk ∧ ∃ e loc, insts s !! a = Some (TryRaise e loc)).
  { intros a. by rewrite elem_of_dom, Hdt, HT. }
  split; [done|]. split; [done|]. split.
  - intros a Har Hat. apply Kr in Har as (_ & e & loc & Hi).
    apply Kt in Hat as (_ & e' & loc' & Hi'). congruence.
  - rewrite bool_decide_eq_true. split.
    + intros Hpos.
      destruct (decide (r = ∅)) as [->|Hne].
      * destruct (decide (t = ∅)) as [->|Hne].
        { rewrite !map_size_empty in Hpos. lia. }
        apply map_choose in Hne as (a & p & Hp).
        destruct (proj1 (Hdt a)) as [Ha Hc]; [eauto|]. exists a. split; [done|].
        apply isinstance_at_Some in Hc as (i & Hi & Hc). apply isinstance_at_Some.
        exists i. split; [done|]. unfold is_raise_like. rewrite Hc.
        by destruct (is_Raise i).
      * apply map_choose in Hne as (a & p & Hp).
        destruct (proj1 (Hdr a)) as [Ha Hc]; [eauto|]. exists a. split; [done|].
        apply isinstance_at_Some in Hc as (i & Hi & Hc). apply isinstance_at_Some.
        exists i. split; [done|]. unfold is_raise_like. by rewrite Hc.
    + intros (a & Ha & Hc). apply isinstance_at_Some in Hc as (i & Hi & Hc).
      unfold is_raise_like in Hc. apply orb_true_iff in Hc as [Hc|Hc].
      * destruct (proj2 (Hdr a)) as [p Hp].
        { split; [done|]. apply isinstance_at_Some. eauto. }
        assert (size r ≠ 0); [|lia]. intros Hz. apply map_size_empty_iff in Hz.
        rewrite Hz, lookup_empty in Hp. discriminate.
      * destruct (proj2 (Hdt a)) as [p Hp].
        { split; [done|]. apply isinstance_at_Some. eauto. }
        assert (size t ≠ 0); [|lia]. intros Hz. apply map_size_empty_iff in Hz.
        rewrite Hz, lookup_empty in Hp. discriminate.
Qed.

(** [match] resets the attributes of the rewriter before anything else. *)
Lemma match_forgets_previous f b s
    (old_raises old_tryraises : option (gmap addr (value * value)))
    (old_block : option addr) :
  match_ f b (set_raises old_raises (set_tryraises old_tryraises (set_block old_block s)))
  = match_ f b s.
Proof. reflexivity. Qed.

End MatchMore.

(** ** Further properties of the rewrite *)

Section RewriteMore.
Context `{PyClasses}.
Implicit Types (s : State) (a b : addr) (f : FunctionIR).
Implicit Types (r t : gmap addr (value * value)).

(** The loop of [apply] over instructions that are keys of neither mapping
    appends them as they are and creates nothing. *)
Lemma apply_loop_unmatched nb l : ∀ s r t nblk,
  raises s = Some r → tryraises s = Some t → blocks s !! nb = Some nblk →
  Forall (λ a, r !! a = None ∧ t !! a = None) l →
  for_each (apply_inst nb) l s =
    (Ok tt, set_blocks (insert nb (mkBlock (scope nblk) (block_loc nblk)
                                     (body nblk ++ l))) s).
Proof.
  induction l as [|a l IH]; intros s r t nblk Hr Ht Hnb Hl.
  - cbn. unfold ret. f_equal. destruct s as [I B ? ? ? ?]. unfold set_blocks. cbn in *.
    f_equal. rewrite app_nil_r. symmetry. apply insert_id. by destruct nblk.
  - apply Forall_cons in Hl as [[Hra Hta] Hl].
    assert (Hstep : apply_inst nb a s = Block_append nb a s).
    { unfold apply_inst, self_raises, self_tryraises.
      unfold bind at 1 2. unfold get at 1. cbn. rewrite Hr. cbn. rewrite Hra.
      unfold bind at 1 2. unfold get at 1. cbn. rewrite Ht. cbn. by rewrite Hta. }
    cbn. unfold bind. rewrite Hstep, (Block_append_run nb a s nblk Hnb).
    erewrite IH; [|exact Hr|exact Ht|cbn; apply lookup_insert_eq|exact Hl].
    f_equal. unfold set_blocks. cbn. f_equal.
    by rewrite insert_insert_eq, <- app_assoc.
Qed.

(** X10: When [match] has answered false, [apply] returns a new block that is a
    copy of the original, and creates no instruction. *)
Theorem apply_copies_when_nothing_matched f b s blk s1 :
  blocks s !! b = Some blk →
  match_ f b s = (Ok false, s1) →
  ∃ nb s2, apply s1 = (Ok nb, s2) ∧ nb ≠ b ∧
    blocks s2 !! nb = Some blk ∧ blocks s2 !! b = Some blk ∧
    insts s2 = insts s.
Proof.
  intros Hb Hm.
  destruct (match_ok f b s blk false s1 Hb Hm)
    as (HI & HB & Hblk & _ & r & t & Hr & Ht & Hres & _).
  symmetry in Hres. apply bool_decide_eq_false in Hres.
  assert (r = ∅) as -> by (apply map_size_empty_iff; lia).
  assert (t = ∅) as -> by (apply map_size_empty_iff; lia).
  rewrite <- HB in Hb.
  set (nb := fresh (dom (blocks s1))).
  assert (Hnb : blocks s1 !! nb = None).
  { apply not_elem_of_dom. apply is_fresh. }
  assert (Hne : nb ≠ b) by congruence.
  set (empty := mkBlock (scope blk) (block_loc blk) []).
  set (sb := set_blocks (insert nb empty)
               (set_blocks (insert nb (mkBlock (scope blk) (block_loc blk) (body blk))) s1)).
  assert (Hloop := apply_loop_unmatched nb (body blk) sb ∅ ∅ empty Hr Ht).
  rewrite apply_unfold, Hblk, Hb. cbn zeta. fold nb.
  unfold Block_clear, get_block. unfold bind, get, of_option, modify, ret. cbn.
  rewrite lookup_insert_eq. cbn. fold empty. fold sb.
  rewrite lookup_insert_ne by done. rewrite lookup_insert_ne by done.
  rewrite Hb. cbn. rewrite Hloop.
  - eexists _, _. split; [reflexivity|]. split; [done|]. cbn.
    rewrite lookup_insert_eq. rewrite !lookup_insert_ne by done.
    split; [by destruct blk|]. split; [done|]. done.
  - apply lookup_insert_eq.
  - apply Forall_forall. intros a _. by rewrite !lookup_empty.
Qed.

(** X11: [apply] asks the oracle nothing and leaves the result of [match] as it
    is, so that it can be run again: the second run returns one more new
    block, with as many instructions as the first. *)
Theorem apply_repeatable f b s blk res s1 :
  blocks s !! b = Some blk →
  match_ f b s = (Ok res, s1) →
  ∃ nb s2 nb' s3 nblk nblk',
    apply s1 = (Ok nb, s2) ∧
    raises s2 = raises s1 ∧ tryraises s2 = tryraises s1 ∧
    block s2 = block s1 ∧ queries s2 = queries s1 ∧
    apply s2 = (Ok nb', s3) ∧ nb' ≠ nb ∧
    blocks s3 !! nb = Some nblk ∧ blocks s3 !! nb' = Some nblk' ∧
    length (body nblk') = length (body nblk).
Proof.
  intros Hb Hm.
  destruct (match_ok f b s blk res s1 Hb Hm)
    as (HI & HB & Hblk & _ & r & t & Hr & Ht & _ & Hdr & Hdt & _).
  assert (Hl : Forall (λ a, is_Some (r !! a) ∨ is_Some (t !! a) →
                            is_Some (insts s1 !! a)) (body blk)).
  { apply Forall_forall. intros a _ [Hs|Hs].
    - apply Hdr in Hs as [_ Hc].
      apply isinstance_at_Some in Hc as (i & Hi & _). rewrite HI. eauto.
    - apply Hdt in Hs as [_ Hc].
      apply isinstance_at_Some in Hc as (i & Hi & _). rewrite HI. eauto. }
  rewrite <- HB in Hb.
  destruct (apply_run s1 b blk r t Hblk Hb Hr Ht Hl)
    as (nb & s2 & out & Hrun & Hnb & HB2 & HI2 & Hout & Hr2 & Ht2 & Hb2 & Hq2).
  assert (Hne : nb ≠ b) by congruence.
  assert (Hb' : blocks s2 !! b = Some blk).
  { rewrite HB2. by rewrite lookup_insert_ne. }
  assert (Hl2 : Forall (λ a, is_Some (r !! a) ∨ is_Some (t !! a) →
                             is_Some (insts s2 !! a)) (body blk)).
  { eapply Forall_impl; [exact Hl|]. cbn. intros a Ha Hk.
    destruct (Ha Hk) as [i Hi]. exists i. eapply lookup_weaken; eauto. }
  rewrite <- Hr2 in Hr. rewrite <- Ht2 in Ht. rewrite <- Hb2 in Hblk.
  destruct (apply_run s2 b blk r t Hblk Hb' Hr Ht Hl2)
    as (nb' & s3 & out' & Hrun' & Hnb' & HB3 & _ & Hout' & _).
  assert (Hne' : nb' ≠ nb).
  { intros ->. rewrite HB2, lookup_insert_eq in Hnb'. discriminate. }
  exists nb, s2, nb', s3, (mkBlock (scope blk) (block_loc blk) out),
    (mkBlock (scope blk) (block_loc blk) out').
  conjs; try done.
  - rewrite HB3, lookup_insert_ne by done. rewrite HB2. apply lookup_insert_eq.
  - rewrite HB3. apply lookup_insert_eq.
  - cbn. apply Forall2_length in Hout, Hout'. congruence.
Qed.

(** X12: One application of the rewrite is enough: in the block returned by
    [apply] after a successful [match] no raise-like instruction is left,
    so that [match] on it, whatever the oracle, answers false, records
    nothing and asks nothing. *)
Theorem rewrite_reaches_fixpoint f g b s blk res s1 nb s2 :
  blocks s !! b = Some blk →
  Forall (λ a, is_Some (insts s !! a)) (body blk) →
  match_ f b s = (Ok res, s1) →
  apply s1 = (Ok nb, s2) →
  ∃ s3, match_ g nb s2 = (Ok false, s3) ∧
        raises s3 = Some ∅ ∧ tryraises s3 = Some ∅ ∧ queries s3 = queries s2.
Proof.
  intros Hb Halloc Hm Happ.
  destruct (match_apply_run f b s blk res s1 Hb Hm)
    as (r & t & nb0 & s20 & out & Hr & Ht & Hrun & _ & HB2 & HI2 & Hout).
  rewrite Happ in Hrun. injection Hrun as <- <-.
  destruct (match_ok f b s blk res s1 Hb Hm)
    as (_ & _ & _ & _ & r0 & t0 & Hr0 & Ht0 & _ & Hdr & Hdt & _).
  assert (r0 = r) as -> by congruence. assert (t0 = t) as -> by congruence.
  assert (Hnb : blocks s2 !! nb = Some (mkBlock (scope blk) (block_loc blk) out)).
  { rewrite HB2. apply lookup_insert_eq. }
  assert (Hnone : Forall (λ a', isinstance_at (insts s2) is_raise_like a' = false) out).
  { apply Forall_forall. intros a' Ha'.
    apply list_elem_of_lookup in Ha' as [n Hn].
    destruct (Forall2_lookup_r _ _ _ _ _ Hout Hn) as (a & Hna & Hem).
    unfold emitted in Hem. unfold isinstance_at.
    destruct (r !! a) as [[ty args]|] eqn:Hra.
    { destruct Hem as (_ & i & _ & ->). done. }
    destruct (t !! a) as [[ty args]|] eqn:Hta.
    { destruct Hem as (_ & i & _ & ->). done. }
    subst a'. assert (Ha : a ∈ body blk) by (eapply list_elem_of_lookup_2; eauto).
    rewrite Forall_forall in Halloc. destruct (Halloc a Ha) as [i Hi].
    rewrite (lookup_weaken _ _ _ _ Hi HI2).
    destruct (is_raise_like i) eqn:Hlike; [|done].
    unfold is_raise_like in Hlike. apply orb_true_iff in Hlike as [Hc|Hc].
    - destruct (proj2 (Hdr a)) as [p Hp]; [|congruence].
      split; [done|]. apply isinstance_at_Some. eauto.
    - destruct (proj2 (Hdt a)) as [p Hp]; [|congruence].
      split; [done|]. apply isinstance_at_Some. eauto. }
  rewrite (match_unfold g nb s2 _ Hnb). cbn [body].
  rewrite (filter_bool_none _ _ Hnone). cbn. eauto.
Qed.

(** *** match after match *)

Lemma forget_eq s s' : forget s = forget s' → s' = set_queries (queries s') s.
Proof.
  destruct s, s'. unfold forget, set_queries. cbn. by intros [= -> -> -> -> ->].
Qed.

Lemma trace_blind_bind {A B} (m : M A) (k : A → M B) :
  trace_blind m → (∀ x, trace_blind (k x)) → trace_blind (bind m k).
Proof.
  intros Hm Hk s q. unfold bind. destruct (Hm s q) as [H1 H2].
  destruct (m (set_queries q s)) as [x' s1'], (m s) as [x s1]. cbn in H1, H2.
  subst x'. destruct x as [x|e]; [|done].
  rewrite (forget_eq s1 s1' (eq_sym H2)). apply Hk.
Qed.

Lemma trace_blind_ret {A} (x : A) : trace_blind (ret x).
Proof. by intros s q. Qed.

Lemma trace_blind_throw {A} e : trace_blind (@throw _ A e).
Proof. by intros s q. Qed.

Lemma trace_blind_lift {A} (x : Res A) : trace_blind (lift x).
Proof. by intros s q. Qed.

Lemma trace_blind_for_each {A} (g : A → M unit) (l : list A) :
  (∀ x, trace_blind (g x)) → trace_blind (for_each g l).
Proof.
  intros Hg. induction l as [|x l IH]; cbn.
  - apply trace_blind_ret.
  - apply trace_blind_bind; auto.
Qed.

Lemma trace_blind_read {A} (g : State → option A) k :
  (∀ s q, g (set_queries q s) = g s) →
  trace_blind (s <- get ;; of_option (g s) k).
Proof.
  intros Hg s q. unfold bind, get, of_option, ret, throw. cbn.
  rewrite Hg. by destruct (g s).
Qed.

Lemma trace_blind_modify (g : State → State) :
  (∀ s q, forget (g (set_queries q s)) = forget (g s)) →
  trace_blind (modify g).
Proof. intros Hg s q. split; [done|]. apply Hg. Qed.

Lemma trace_blind_match_inst f a : trace_blind (match_inst f a).
Proof.
  unfold match_inst, get_inst.
  apply trace_blind_bind; [by apply trace_blind_read|]. intros i.
  apply trace_blind_bind; [apply trace_blind_lift|]. intros exception.
  apply trace_blind_bind.
  { destruct exception as [v|]; [|apply trace_blind_ret].
    apply trace_blind_bind; [|intros const; apply trace_blind_lift].
    unfold call_infer_constant.
    apply trace_blind_bind; [by apply trace_blind_modify|].
    intros _. apply trace_blind_lift. }
  intros [exc_type exc_args].
  unfold raises_setitem, tryraises_setitem, self_raises, self_tryraises.
  destruct (is_Raise i).
  { apply trace_blind_bind; [by apply trace_blind_read|].
    intros r. by apply trace_blind_modify. }
  destruct (is_TryRaise i); [|apply trace_blind_throw].
  apply trace_blind_bind; [by apply trace_blind_read|].
  intros t. by apply trace_blind_modify.
Qed.

Lemma trace_blind_match f b : trace_blind (match_ f b).
Proof.
  unfold match_, Block_find_insts, get_block, self_raises, self_tryraises.
  apply trace_blind_bind; [by apply trace_blind_modify|]. intros _.
  apply trace_blind_bind; [by apply trace_blind_modify|]. intros _.
  apply trace_blind_bind; [by apply trace_blind_modify|]. intros _.
  apply trace_blind_bind.
  { apply trace_blind_bind; [by apply trace_blind_read|]. intros blk.
    intros s q. by unfold bind, get, ret. }
  intros found.
  apply trace_blind_bind.
  { apply trace_blind_for_each. intros a. apply trace_blind_match_inst. }
  intros _.
  apply trace_blind_bind; [by apply trace_blind_read|]. intros r.
  apply trace_blind_bind; [by apply trace_blind_read|]. intros t.
  apply trace_blind_ret.
Qed.

(** X8: Nothing of an earlier [match] (on any block, with any oracle,
    completed or failed) reaches a later one: the later [match] gives the
    outcome, and leaves the mappings, the remembered block and the store,
    that it gives when run alone. *)
Theorem match_after_match f g b1 b2 s :
  let s1 := (match_ f b1 s).2 in
  (match_ g b2 s1).1 = (match_ g b2 s).1 ∧
  raises (match_ g b2 s1).2 = raises (match_ g b2 s).2 ∧
  tryraises (match_ g b2 s1).2 = tryraises (match_ g b2 s).2 ∧
  block (match_ g b2 s1).2 = block (match_ g b2 s).2 ∧
  insts (match_ g b2 s1).2 = insts (match_ g b2 s).2 ∧
  blocks (match_ g b2 s1).2 = blocks (match_ g b2 s).2.
Proof.
  intros s1.
  destruct (keeps_store_match f b1 s) as [HI HB]. fold s1 in HI, HB.
  assert (Hs1 : s1 = set_raises (raises s1) (set_tryraises (tryraises s1)
                       (set_block (block s1) (set_queries (queries s1) s)))).
  { destruct s1, s. unfold set_raises, set_tryraises, set_block, set_queries.
    cbn in *. by subst. }
  rewrite Hs1, match_forgets_previous.
  destruct (trace_blind_match g b2 s (queries s1)) as [H1 H2].
  split; [done|].
  destruct (match_ g b2 (set_queries (queries s1) s)) as [x' s2'].
  destruct (match_ g b2 s) as [x s2]. cbn in *.
  destruct s2, s2'. unfold forget, set_queries in H2. cbn in *.
  by injection H2 as -> -> -> -> ->.
Qed.

(** X9: When no instruction occurs twice in the block, a successful [match]
    records one entry for each [Raise] and one for each [TryRaise]. *)
Theorem match_counts f b s blk res s1 :
  blocks s !! b = Some blk →
  NoDup (body blk) →
  match_ f b s = (Ok res, s1) →
  ∃ r t, raises s1 = Some r ∧ tryraises s1 = Some t ∧
    size r = length (List.filter (isinstance_at (insts s) is_Raise) (body blk)) ∧
    size t = length (List.filter (isinstance_at (insts s) is_TryRaise) (body blk)).
Proof.
  intros Hb Hnd Hm.
  destruct (match_ok f b s blk res s1 Hb Hm)
    as (_ & _ & _ & _ & r & t & Hr & Ht & _ & Hdr & Hdt & _).
  exists r, t. split; [done|]. split; [done|].
  assert (Hcount : ∀ (m : gmap addr (value * value)) cls,
            (∀ a, is_Some (m !! a) ↔
                  a ∈ body blk ∧ isinstance_at (insts s) cls a = true) →
            size m = length (List.filter (isinstance_at (insts s) cls) (body blk))).
  { intros m cls Hdm. rewrite <- size_dom.
    rewrite <- (size_list_to_set (C := gset addr))
      by by apply NoDup_ListNoDup, List.NoDup_filter, NoDup_ListNoDup.
    f_equal. apply set_eq. intros a.
    by rewrite elem_of_dom, Hdm, elem_of_list_to_set, elem_of_filter_bool. }
  split; by apply Hcount.
Qed.

End RewriteMore.

(** ** The further properties at concrete blocks *)

(** X3 at a concrete block. *)
Lemma match_succeeds_iff_witness :
  (∃ res s1, match_ ex_oracle 7%positive ex_mixed = (Ok res, s1)) ↔
  (∀ a v, a ∈ ex_mixed_body → operand_at (insts ex_mixed) a = Some v →
          ∃ p, resolve ex_oracle v = Ok p).
Proof.
  apply (match_succeeds_iff ex_oracle 7%positive ex_mixed (ex_block ex_mixed_body)).
  vm_compute. reflexivity.
Defined.

(** X4 at a concrete block. *)
Lemma match_failure_origin_witness :
  ∃ a v, a ∈ ex_failing_body ∧ operand_at (insts ex_failing) a = Some v ∧
         resolve ex_oracle v = Throw (NotImplementedError (VInt 3)).
Proof.
  apply (match_failure_origin ex_oracle 1%positive ex_failing
           (ex_block ex_failing_body) (NotImplementedError (VInt 3))
           ex_failing_aborted).
  - vm_compute. reflexivity.
  - vm_compute. reflexivity.
Defined.

(** X5 at a concrete block. *)
Lemma match_aborts_at_first_failure_witness :
  ∃ s1, match_ ex_oracle 1%positive ex_failing
        = (Throw (NotImplementedError (VInt 3)), s1) ∧
        queries s1
        = queries ex_failing ++ omap (operand_at (insts ex_failing)) [1%positive]
          ++ ["n"] ∧
        insts s1 = insts ex_failing ∧ blocks s1 = blocks ex_failing.
Proof.
  apply (match_aborts_at_first_failure ex_oracle 1%positive ex_failing
           (ex_block ex_failing_body) [1%positive] 2%positive [3%positive] "n"
           (NotImplementedError (VInt 3))).
  - vm_compute. reflexivity.
  - reflexivity.
  - intros x w Hx Hw. apply list_elem_of_singleton in Hx as ->.
    vm_compute in Hw. injection Hw as <-. eexists. vm_compute. reflexivity.
  - vm_compute. reflexivity.
  - vm_compute. reflexivity.
Defined.

(** X6 at a concrete block. *)
Lemma match_records_resolution_witness :
  ∃ r t, raises ex_mixed_matched = Some r ∧ tryraises ex_mixed_matched = Some t ∧
    ∀ a v loc, a ∈ ex_mixed_body →
      (insts ex_mixed !! a = Some (Raise (Some v) loc) →
         ∃ const p, infer_constant ex_oracle v = Ok const ∧
                    _break_constant const = Ok p ∧ r !! a = Some p) ∧
      (insts ex_mixed !! a = Some (TryRaise (Some v) loc) →
         ∃ const p, infer_constant ex_oracle v = Ok const ∧
                    _break_constant const = Ok p ∧ t !! a = Some p).
Proof.
  apply (match_records_resolution ex_oracle 7%positive ex_mixed
           (ex_block ex_mixed_body) true ex_mixed_matched).
  - vm_compute. reflexivity.
  - vm_compute. reflexivity.
Defined.

(** X7 at a concrete block. *)
Lemma match_keys_witness :
  ∃ r t, raises ex_mixed_matched = Some r ∧ tryraises ex_mixed_matched = Some t ∧
    block ex_mixed_matched = Some 7%positive ∧
    (∀ a, a ∈ dom r ↔
          a ∈ ex_mixed_body ∧ ∃ e loc, insts ex_mixed !! a = Some (Raise e loc)) ∧
    (∀ a, a ∈ dom t ↔
          a ∈ ex_mixed_body ∧ ∃ e loc, insts ex_mixed !! a = Some (TryRaise e loc)) ∧
    dom r ## dom t ∧
    (true = true ↔
     ∃ a, a ∈ ex_mixed_body ∧
          isinstance_at (insts ex_mixed) is_raise_like a = true).
Proof.
  apply (match_keys ex_oracle 7%positive ex_mixed (ex_block ex_mixed_body)
           true ex_mixed_matched).
  - vm_compute. reflexivity.
  - vm_compute. reflexivity.
Defined.

(** X10 at a concrete block. *)
Lemma apply_copies_when_nothing_matched_witness :
  ∃ nb s2, apply ex_plain_matched = (Ok nb, s2) ∧ nb ≠ 1%positive ∧
    blocks s2 !! nb = Some (ex_block ex_plain_body) ∧
    blocks s2 !! 1%positive = Some (ex_block ex_plain_body) ∧
    insts s2 = insts ex_plain.
Proof.
  apply (apply_copies_when_nothing_matched ex_oracle 1%positive ex_plain
           (ex_block ex_plain_body) ex_plain_matched).
  - vm_compute. reflexivity.
  - vm_compute. reflexivity.
Defined.

(** X11 at a concrete block. *)
Lemma apply_repeatable_witness :
  ∃ nb s2 nb' s3 nblk nblk',
    apply ex_mixed_matched = (Ok nb, s2) ∧
    raises s2 = raises ex_mixed_matched ∧ tryraises s2 = tryraises ex_mixed_matched ∧
    block s2 = block ex_mixed_matched ∧ queries s2 = queries ex_mixed_matched ∧
    apply s2 = (Ok nb', s3) ∧ nb' ≠ nb ∧
    blocks s3 !! nb = Some nblk ∧ blocks s3 !! nb' = Some nblk' ∧
    length (body nblk') = length (body nblk).
Proof.
  apply (apply_repeatable ex_oracle 7%positive ex_mixed (ex_block ex_mixed_body)
           true ex_mixed_matched).
  - vm_compute. reflexivity.
  - vm_compute. reflexivity.
Defined.

(** X12 at a concrete block. *)
Lemma rewrite_reaches_fixpoint_witness :
  ∃ s3, match_ no_oracle 8%positive ex_mixed_applied = (Ok false, s3) ∧
        raises s3 = Some ∅ ∧ tryraises s3 = Some ∅ ∧
        queries s3 = queries ex_mixed_applied.
Proof.
  apply (rewrite_reaches_fixpoint ex_oracle no_oracle 7%positive ex_mixed
           (ex_block ex_mixed_body) true ex_mixed_matched 8%positive ex_mixed_applied).
  - vm_compute. reflexivity.
  - repeat first
      [ apply Forall_nil_2
      | apply Forall_cons_2; [eexists; vm_compute; reflexivity|] ].
  - vm_compute. reflexivity.
  - vm_compute. reflexivity.
Defined.

(** X9 at a concrete block. *)
Lemma match_counts_witness :
  ∃ r t, raises ex_mixed_matched = Some r ∧ tryraises ex_mixed_matched = Some t ∧
    size r = length (List.filter (isinstance_at (insts ex_mixed) is_Raise) ex_mixed_body) ∧
    size t = length (List.filter (isinstance_at (insts ex_mixed) is_TryRaise) ex_mixed_body).
Proof.
  apply (match_counts ex_oracle 7%positive ex_mixed (ex_block ex_mixed_body)
           true ex_mixed_matched).
  - vm_compute. reflexivity.
  - unfold ex_block, ex_mixed_body, body. refine (bool_decide_unpack _ _).
    vm_compute. exact I.
  - vm_compute. reflexivity.
Defined.
